(** * mailgun-sendmail: the dot-stop reader and the header block

    A shallow embedding of [cmd/mailgun-sendmail/main.go]: the
    [dotStopReader] that ends an interactively typed message at a line
    holding a single dot, and the part of [main] that builds the header
    block handed to the Mailgun gateway. *)

From Stdlib Require Import Strings.Byte.
From stdpp Require Import gmap strings list sorting.

Local Open Scope nat_scope.

(** ** Bytes and slices *)

Module Bytes.

Definition CR : byte := x0d.
Definition LF : byte := x0a.
Definition DOT : byte := x2e.

(** [c == '\r' || c == '\n'] *)
Definition is_break (c : byte) : bool := Byte.eqb c CR || Byte.eqb c LF.

(** [c == '.'] *)
Definition is_dot (c : byte) : bool := Byte.eqb c DOT.

Definition of_string (s : string) : list byte := String.list_byte_of_string s.

(** Go's builtin [copy(dst, src)]: the first [min (len dst) (len src)]
    elements of [dst] are overwritten, the rest of [dst] is kept. *)
Definition copy (dst src : list byte) : list byte :=
  take (length dst) src ++ drop (length src) dst.

(** The slice expressions [s[:j]] and [s[i:]]; out of range they panic,
    which is [None] here. *)
Definition slice_to (s : list byte) (j : nat) : option (list byte) :=
  if j <=? length s then Some (take j s) else None.

Definition slice_from (s : list byte) (i : nat) : option (list byte) :=
  if i <=? length s then Some (drop i s) else None.

(** A [[3]byte] array. *)
Definition array3 : Type := byte * byte * byte.

Definition arr_list (a : array3) : list byte :=
  let '(x, y, z) := a in [x; y; z].

Definition arr_of (l : list byte) : array3 :=
  (nth 0 l x00, nth 1 l x00, nth 2 l x00).

Definition zero3 : array3 := (x00, x00, x00).

End Bytes.
Import Bytes.

(** ** io.Reader *)

Inductive error : Type :=
| EOF
| ErrOther (msg : string).

(** [Read(p []byte) (n int, err error)]: a reader handed a buffer of [cap]
    bytes writes [n <= cap] bytes at its front.  The bytes written are the
    returned list, whose length is [n]. *)
Class Reader (S : Type) : Type := {
  io_read : S → nat → (list byte * option error) * S;
  io_read_len : ∀ s cap, length (io_read s cap).1.1 ≤ cap
}.

(** A byte stream handed out in pieces: the first component is what is left
    of the stream, the second the sizes of the pieces the next reads will
    offer (a read never returns more than the buffer holds; with no size
    left it fills the buffer).  Like [bufio.Reader] over a file, it returns
    [io.EOF] only with no data. *)
Definition ChunkSource : Type := list byte * list nat.

Definition chunk_read (s : ChunkSource) (cap : nat) : (list byte * option error) * ChunkSource :=
  match s.1 with
  | [] => (([], Some EOF), (s.1, tail s.2))
  | _ =>
    let k := hd cap s.2 `min` cap in
    ((take k s.1, None), (drop k s.1, tail s.2))
  end.

#[export] Program Instance ChunkReader : Reader ChunkSource :=
  {| io_read := chunk_read |}.
Next Obligation.
  intros [data sched] cap. unfold chunk_read. simpl.
  destruct data; simpl; [lia|]. rewrite length_take. lia.
Qed.

(** ** dotStopReader *)

Record dotStopReader (S : Type) : Type := mkDotStop {
  r : S;
  state : nat;       (* how far into "\n.\n" have we seen? *)
  extra : array3
}.
Arguments mkDotStop {S} _ _ _.
Arguments r {S} _.
Arguments state {S} _.
Arguments extra {S} _.

(** [&dotStopReader{r: body}] *)
Definition newDotStop {S : Type} (body : S) : dotStopReader S :=
  mkDotStop body 0 zero3.

Inductive outcome : Type :=
| Returned (n : nat) (err : option error)
| Panicked (msg : string).

Definition too_small : string := "dotStopReader must read at least 4 bytes at a time".
Definition out_of_range : string := "slice bounds out of range".

(** The body of the [switch r.state] for one byte [c]: the new state, and
    whether [break Loop] is executed. *)
Definition switch (st : nat) (c : byte) : nat * bool :=
  match st with
  | 0 => if is_break c then (1, false) else (0, false)
  | 1 => if is_dot c then (2, false) else (1, false)
  | 2 => if is_break c then (3, true) else (2, false)
  | _ => (st, false)
  end.

(** [for i, c := range b[:n]]: [bs] is what is left of [b[:n]] from index
    [i] on; the result is [r.state] and [n] when the loop is left. *)
Fixpoint Loop (st n i : nat) (bs : list byte) : nat * nat :=
  match bs with
  | [] => (st, n)
  | c :: rest =>
    let '(st', brk) := switch st c in
    if brk then (st', i + 1) else Loop st' n (S i) rest
  end.

Section Read.
Context {S : Type} `{Reader S}.

(** [func (r *dotStopReader) Read(b []byte) (int, error)].  The result
    holds the outcome, the reader and the buffer [b] after the call. *)
Definition Read (d : dotStopReader S) (b : list byte)
  : outcome * dotStopReader S * list byte :=
  (* if len(b) < 4 { panic(...) } *)
  if length b <? 4 then (Panicked too_small, d, b)
  (* if r.state == 3 { return 0, io.EOF } *)
  else if state d =? 3 then (Returned 0 (Some EOF), d, b)
  else
    match slice_to (arr_list (extra d)) (state d), slice_from b (state d) with
    | Some ex, Some dst =>
      (* copy(b, r.extra[:r.state]) *)
      let b1 := copy b ex in
      (* n, err := r.r.Read(b[r.state:]) *)
      let '((data, err), src) := io_read (r d) (length dst) in
      let b2 := take (state d) b1 ++ copy (drop (state d) b1) data in
      (* n += r.state; r.state = 0 *)
      let n := length data + state d in
      (* for i, c := range b[:n] { switch r.state ... } *)
      match slice_to b2 n with
      | Some chunk =>
        let '(st, n1) := Loop 0 n 0 chunk in
        (* if r.state > 0 { copy(r.extra[:], b[n-r.state:]); n -= r.state } *)
        if 0 <? st then
          if st <=? n1 then
            match slice_from b2 (n1 - st) with
            | Some tl =>
              let ex' := arr_of (copy (arr_list (extra d)) tl) in
              let n2 := n1 - st in
              (* if n > 0 { return n, nil }; return 0, err *)
              if 0 <? n2 then (Returned n2 None, mkDotStop src st ex', b2)
              else (Returned 0 err, mkDotStop src st ex', b2)
            | None => (Panicked out_of_range, mkDotStop src st (extra d), b2)
            end
          else (Panicked out_of_range, mkDotStop src st (extra d), b2)
        else
          (* if n > 0 { return n, nil }; return 0, err *)
          if 0 <? n1 then (Returned n1 None, mkDotStop src st (extra d), b2)
          else (Returned 0 err, mkDotStop src st (extra d), b2)
      | None => (Panicked out_of_range, mkDotStop src 0 (extra d), b2)
      end
    | _, _ => (Panicked out_of_range, d, b)
    end.

(** The bytes the caller sees after one call: [b[:n]]. *)
Definition delivered (o : outcome) (b : list byte) : list byte :=
  match o with
  | Returned n _ => take n b
  | Panicked _ => []
  end.

(** A caller reading again and again, each time into the next buffer of
    [bufs]; a panic ends the program.  The result: the outcome of each
    call, the bytes delivered in all, the reader at the end. *)
Fixpoint run (d : dotStopReader S) (bufs : list (list byte))
  : list outcome * list byte * dotStopReader S :=
  match bufs with
  | [] => ([], [], d)
  | b :: rest =>
    let '(o, d1, b1) := Read d b in
    match o with
    | Panicked _ => ([o], [], d1)
    | Returned _ _ =>
      let '(os, out, d2) := run d1 rest in
      (o :: os, delivered o b1 ++ out, d2)
    end
  end.

End Read.

(** The bytes withheld from the caller at the end of a read:
    [r.extra[:r.state]]. *)
Definition carry {S : Type} (d : dotStopReader S) : list byte :=
  take (state d) (arr_list (extra d)).

(** [n] buffers of [len] zero bytes each. *)
Definition buffers (len n : nat) : list (list byte) :=
  replicate n (replicate len x00).

Definition hello : list byte :=
  of_string "Hello" ++ [CR; LF; DOT; CR; LF] ++ of_string "world".

Definition two_dots : list byte :=
  of_string "a" ++ [CR; LF; DOT; DOT; CR; LF] ++ of_string "b".

Definition hi_lf : list byte := of_string "hi" ++ [LF].

(** A line [.a] after an empty line, then the terminator. *)
Definition dot_a : list byte := [LF; DOT] ++ of_string "a" ++ [LF; DOT; LF].

(** A line with a dot inside it and no terminator anywhere. *)
Definition a_dot_b : list byte := [LF] ++ of_string "a.b" ++ [LF].

(** The state the loop would reach on [bs] from [st] if it never broke off:
    the states only move forward, 3 is kept. *)
Definition sticky (st : nat) (bs : list byte) : nat :=
  fold_left (λ s c, (switch s c).1) bs st.
Arguments sticky : simpl never.

(** What one read makes of the bytes it scans, [chunk] being
    [r.extra[:r.state]] followed by the bytes just read: the state and [n]
    on leaving the loop, the bytes given to the caller, the bytes held back
    in [extra]. *)
Definition scan (chunk : list byte) : nat * nat :=
  Loop 0 (length chunk) 0 chunk.

Definition kept (chunk : list byte) : nat := (scan chunk).1.

Definition given (chunk : list byte) : list byte :=
  take ((scan chunk).2 - (scan chunk).1) chunk.

Definition held (chunk : list byte) : list byte :=
  take (kept chunk) (drop ((scan chunk).2 - kept chunk) chunk).

(** The call returned: it did not panic. *)
Definition returned (o : outcome) : Prop := ∃ n e, o = Returned n e.

(** The outcome of the latest call, [o] being the one before [os]. *)
Definition latest (o : option outcome) (os : list outcome) : option outcome :=
  match last os with
  | Some x => Some x
  | None => o
  end.

(** ** Shapes of input *)

(** A line break, later a dot, later a line break, any bytes in between. *)
Definition scattered (bs : list byte) : Prop :=
  ∃ u b1 v w b2 x,
    bs = u ++ b1 :: v ++ DOT :: w ++ b2 :: x
    ∧ is_break b1 = true ∧ is_break b2 = true.

(** A line break and later a dot. *)
Definition dot_after_break (bs : list byte) : Prop :=
  ∃ u b v w, bs = u ++ b :: v ++ DOT :: w ∧ is_break b = true.

Definition has_break (bs : list byte) : Prop :=
  ∃ u b v, bs = u ++ b :: v ∧ is_break b = true.

(** The terminator itself: a line break, a dot, a line break. *)
Definition has_terminator (bs : list byte) : Prop :=
  ∃ u b1 b2 x,
    bs = u ++ b1 :: DOT :: b2 :: x ∧ is_break b1 = true ∧ is_break b2 = true.

Definition ends_break (bs : list byte) : Prop :=
  ∃ u b, bs = u ++ [b] ∧ is_break b = true.

Definition ends_break_dot (bs : list byte) : Prop :=
  ∃ u b, bs = u ++ [b; DOT] ∧ is_break b = true.

(** The number of bytes at the end of a stream that start the pattern: a
    line break (1), or a line break and a dot (2). *)
Definition trailing (bs : list byte) : nat :=
  match rev bs with
  | c :: rest =>
    if is_break c then 1
    else match rest with
         | b :: _ => if is_dot c && is_break b then 2 else 0
         | [] => 0
         end
  | [] => 0
  end.

(** The stream without them. *)
Definition body (bs : list byte) : list byte :=
  take (length bs - trailing bs) bs.

(** Nothing more will come: the pattern was completed, or the stream is at
    its end and rescanning the held bytes gives none of them away. *)
Definition at_eof (d : dotStopReader ChunkSource) : Prop :=
  state d = 3 ∨ (state d ≤ 2 ∧ (r d).1 = [] ∧ given (carry d) = []).

(** ** What runs keep true

    Each property speaks of the bytes delivered so far, the outcome of the
    latest call and the reader. *)

(** What has been delivered, what is held back and what is still to be
    read make up the input, until the pattern is completed. *)
Definition conserved (input out : list byte) (o : option outcome)
    (d : dotStopReader ChunkSource) : Prop :=
  state d ≤ 3 ∧ out `prefix_of` input
  ∧ (state d < 3 → out ++ carry d ++ (r d).1 = input).

(** On input that never completes the pattern: nothing is lost, the start
    of a pattern at the end of what was read is held back, and an error is
    returned only at the end of the stream, with all of [body input]
    delivered. *)
Definition passing (input out : list byte) (o : option outcome)
    (d : dotStopReader ChunkSource) : Prop :=
  state d ≤ 2 ∧ out ++ carry d ++ (r d).1 = input
  ∧ (ends_break (out ++ carry d) → 1 ≤ state d)
  ∧ (ends_break_dot (out ++ carry d) → state d = 2)
  ∧ (∀ n e, o = Some (Returned n (Some e)) →
       e = EOF ∧ n = 0 ∧ (r d).1 = [] ∧ out = body input).

(** On input [pre ++ terminator ++ post]: either the pattern was completed
    and exactly [pre] was delivered, or the stream has not been read beyond
    the dot, nothing of the terminator was delivered and no call returned
    an error. *)
Definition stopping (pre input out : list byte) (o : option outcome)
    (d : dotStopReader ChunkSource) : Prop :=
  (state d = 3 ∧ out = pre
   ∧ ∀ n e, o = Some (Returned n (Some e)) → n = 0 ∧ e = EOF)
  ∨ (state d ≤ 2 ∧ out ++ carry d ++ (r d).1 = input
     ∧ length out ≤ length pre
     ∧ length (out ++ carry d) ≤ length pre + 2
     ∧ ∀ n e, o ≠ Some (Returned n (Some e))).

(** The passthrough as the specification words it: on input without a
    terminator, a run that has come to [io.EOF] has delivered the whole
    input. *)
Definition passthrough_as_claimed : Prop :=
  ∀ input sched bufs os out d,
    ¬ has_terminator input →
    Forall (λ b, 4 ≤ length b) bufs →
    run (newDotStop (input, sched)) bufs = (os, out, d) →
    last os = Some (Returned 0 (Some EOF)) →
    out = input.

(** ** main: the recipients and the header block *)

(** [mail.Address] *)
Record Address : Type := mkAddress { Name : string; Addr : string }.

(** [mail.Header], a [map[string][]string] keyed by canonical names. *)
Abbreviation Header := (gmap string (list string)).

(** [h[key]]: a key that is not in the map gives the nil slice. *)
Definition values (h : Header) (key : string) : list string :=
  default [] (h !! key).

(** A value or an [error] with its text. *)
Inductive parsed (A : Type) : Type :=
| Ok (a : A)
| Bad (err : string).
Arguments Ok {A} _.
Arguments Bad {A} _.

(** How far [main] gets: to the next statement, or to [mg.Die]. *)
Inductive step (A : Type) : Type :=
| Go (a : A)
| Died (msg : string).
Arguments Go {A} _.
Arguments Died {A} _.

Definition bind {A B : Type} (x : step A) (f : A → step B) : step B :=
  match x with
  | Go a => f a
  | Died msg => Died msg
  end.

Notation "x ←' c ; k" := (bind c (λ x, k))
  (at level 100, c at next level, right associativity).

(** The command line after [getopt.Parse]. *)
Record Flags : Type := mkFlags {
  bflag : string;
  dflag : list string;
  Fflag : string;
  fflag : string;
  iflag : bool;
  tflag : bool;
  args : list string
}.

(** What [mg.MailMIME(from, to, mime)] is called with: the sender, the
    recipients, the header block [hdr] that [mime] starts with, and whether
    the body is read through a [dotStopReader]. *)
Record Mail : Type := mkMail {
  mail_from : Address;
  mail_to : list Address;
  mail_hdr : string;
  mail_dot_stop : bool
}.

Definition nl : string := String (Ascii.ascii_of_nat 10) EmptyString.

(** [sort.Strings] orders by bytes. *)
Definition str_le (a b : string) : Prop := String.leb a b = true.

#[export] Instance str_le_dec : RelDecision str_le :=
  λ a b, decide (String.leb a b = true).

(** [keys] after [sort.Strings(keys)]: the order in which the loop over
    the map appended them does not show. *)
Definition sorted_keys (h : Header) : list string :=
  merge_sort str_le (map_to_list h).*1.

(** The fields in the order they are written: the keys ascending, the
    values of a key in their order. *)
Definition fields (h : Header) : list (string * string) :=
  k ← sorted_keys h; (λ v, (k, v)) <$> values h k.

(** [fmt.Fprintf(&hdr, "%s: %s\n", k, v)] *)
Definition field_line (kv : string * string) : string :=
  (kv.1 +:+ ": " +:+ kv.2 +:+ nl)%string.

Definition write_fields (fs : list (string * string)) : string :=
  (foldr String.append EmptyString (field_line <$> fs) +:+ nl)%string.

Section Main.
(** Of [net/mail], [os] and the package [mg], which are not part of this
    program's file: [mg.AddrListFlag.Set], [mail.Header.AddressList],
    [mail.Address.String], [os.Getenv("USER")], [mg.IsTTY]. *)
Variable to_Set : list Address → string → parsed (list Address).
Variable AddressList : Header → string → parsed (list Address).
Variable AddressString : Address → string.
Variable USER : string.
Variable IsTTY : bool.

(** [for _, v := range dflag] *)
Fixpoint debug_values (vs : list string) : step unit :=
  match vs with
  | [] => Go ()
  | v :: rest =>
    if decide (v = "http") then debug_values rest
    else if decide (v = "nosend") then debug_values rest
    else Died ("unknown debug value -d " +:+ v)
  end.

(** [for _, arg := range flag.Args()] *)
Fixpoint set_args (to : list Address) (l : list string) : step (list Address) :=
  match l with
  | [] => Go to
  | arg :: rest =>
    match to_Set to arg with
    | Ok to' => set_args to' rest
    | Bad err => Died ("cannot parse To: address: " +:+ err)
    end
  end.

Definition from_address (f : Flags) : step Address :=
  if decide (fflag f ≠ EmptyString) then Go (mkAddress (Fflag f) (fflag f))
  else if decide (USER = EmptyString) then
    Died "cannot determine From address: -f/-r not used, and $USER not set"
  else Go (mkAddress (Fflag f) USER).

(** [for _, key := range []string{"To", "Cc", "Bcc"}] *)
Fixpoint header_recipients (h : Header) (to : list Address)
    (keys : list string) : step (list Address) :=
  match keys with
  | [] => Go to
  | key :: rest =>
    if length (values h key) =? 0 then header_recipients h to rest
    else
      match AddressList h key with
      | Ok addrs => header_recipients h (to ++ addrs) rest
      | Bad err => Died ("cannot parse " +:+ key +:+ ": list: " +:+ err)
      end
  end.

Definition recipients (f : Flags) (h : Header) (to : list Address)
  : step (list Address) :=
  if tflag f then
    to' ←' header_recipients h to ["To"; "Cc"; "Bcc"];
    if length to' =? 0 then Died "no recipients found in message" else Go to'
  else Go to.

(** The header after [msg.Header["From"] = ...] and
    [delete(msg.Header, "Bcc")]. *)
Definition final_header (from : Address) (h : Header) : Header :=
  let h1 :=
    if length (values h "From") =? 0 then <["From" := [AddressString from]]> h
    else h in
  delete "Bcc" h1.

(** [main] from [getopt.Parse()] on; [msg] is what
    [mail.ReadMessage(os.Stdin)] returned. *)
Definition main (f : Flags) (msg : parsed Header) : step Mail :=
  _ ←' debug_values (dflag f);
  if decide (bflag f ≠ "m") then Died "only sendmail -bm is supported"
  else if (length (args f) =? 0) && negb (tflag f) then
    Died "no delivery addresses given"
  else
    to ←' set_args [] (args f);
    from ←' from_address f;
    match msg with
    | Bad err => Died ("reading message header: " +:+ err)
    | Ok h =>
      to' ←' recipients f h to;
      Go (mkMail from to' (write_fields (fields (final_header from h)))
            (IsTTY && negb (iflag f)))
    end.

End Main.

(** A run of [main] to try it on: [-t], the addresses taken to be what
    stands in the field. *)
Definition demo_header : Header :=
  <["To" := ["a@example.com"]]> (<["Bcc" := ["hidden@example.com"]]>
    (<["Subject" := ["hi"]]> ∅)).

Definition demo_flags : Flags := mkFlags "m" [] EmptyString EmptyString false true [].

Definition demo_main : step Mail :=
  main (λ to arg, Ok (to ++ [mkAddress EmptyString arg]))
    (λ h key, Ok [mkAddress EmptyString (hd EmptyString (values h key))])
    Addr "root" true demo_flags (Ok demo_header).

Definition demo_mail : Mail :=
  mkMail (mkAddress EmptyString "root")
    [mkAddress EmptyString "a@example.com"; mkAddress EmptyString "hidden@example.com"]
    ("From: root" +:+ nl +:+ "Subject: hi" +:+ nl +:+ "To: a@example.com"
       +:+ nl +:+ nl)
    true.

(** The header map of a message with the lines [To: a@example.com] and
    [Bcc : s@x.com], the second with a space before its colon:
    [mail.ReadMessage] keeps such a name as it stands, space and all. *)
Definition spaced_header : Header :=
  <["To" := ["a@example.com"]]> (<["Bcc " := ["s@x.com"]]> ∅).

(** It sent with [-t], and sent to [a@example.com] without. *)
Definition spaced_main_t : step Mail :=
  main (λ to arg, Ok (to ++ [mkAddress EmptyString arg]))
    (λ h key, Ok [mkAddress EmptyString (hd EmptyString (values h key))])
    Addr "root" true demo_flags (Ok spaced_header).

Definition spaced_main_args : step Mail :=
  main (λ to arg, Ok (to ++ [mkAddress EmptyString arg]))
    (λ h key, Ok [mkAddress EmptyString (hd EmptyString (values h key))])
    Addr "root" true
    (mkFlags "m" [] EmptyString EmptyString false false ["a@example.com"])
    (Ok spaced_header).

(** ** Reading the header block back *)

(** The text cut at every newline, as [strings.Split(s, "\n")] cuts it. *)
Fixpoint split_nl (s : string) : list string :=
  match s with
  | EmptyString => [EmptyString]
  | String c rest =>
    if Ascii.eqb c (Ascii.ascii_of_nat 10) then EmptyString :: split_nl rest
    else
      match split_nl rest with
      | l :: ls => String c l :: ls
      | [] => [String c EmptyString]
      end
  end.

Fixpoint has_nl (s : string) : bool :=
  match s with
  | EmptyString => false
  | String c rest => Ascii.eqb c (Ascii.ascii_of_nat 10) || has_nl rest
  end.

(** A field as its line reads, without the newline. *)
Definition field_text (kv : string * string) : string :=
  (kv.1 +:+ ": " +:+ kv.2)%string.

(** What the loop over [To], [Cc] and [Bcc] takes from one of them: nothing
    when the header has no value under the key, else the list
    [mail.Header.AddressList] gives. *)
Definition listed (AddressList : Header → string → parsed (list Address))
    (h : Header) (key : string) (addrs : list Address) : Prop :=
  (values h key = [] ∧ addrs = [])
  ∨ (values h key ≠ [] ∧ AddressList h key = Ok addrs).

(** ** Slices and [copy] *)

Section Slices.
Implicit Types (b dst src : list byte) (a : array3).

Lemma length_copy dst src : length (copy dst src) = length dst.
Proof. unfold copy. rewrite length_app, length_take, length_drop. lia. Qed.

Lemma copy_fits dst src :
  length src ≤ length dst → copy dst src = src ++ drop (length src) dst.
Proof. intros Hle. unfold copy. by rewrite take_ge. Qed.

Lemma length_arr_list a : length (arr_list a) = 3.
Proof. by destruct a as [[x y] z]. Qed.

Lemma arr_list_of l : length l = 3 → arr_list (arr_of l) = l.
Proof. by destruct l as [|x [|y [|z [|w l]]]]. Qed.

Lemma slice_to_Some b j : j ≤ length b → slice_to b j = Some (take j b).
Proof. intros Hle. unfold slice_to. by rewrite (proj2 (Nat.leb_le _ _) Hle). Qed.

Lemma slice_from_Some b i : i ≤ length b → slice_from b i = Some (drop i b).
Proof. intros Hle. unfold slice_from. by rewrite (proj2 (Nat.leb_le _ _) Hle). Qed.

End Slices.

(** ** The scan loop *)

Section Scan.
Implicit Types (bs : list byte) (c : byte) (st : nat).

Lemma break_not_dot c : is_break c = true → is_dot c = false.
Proof.
  unfold is_break, is_dot. intros [Hc|Hc]%orb_true_iff;
    apply byte_dec_bl in Hc; by subst c.
Qed.

Lemma switch_break st c : (switch st c).2 = true ↔ st = 2 ∧ is_break c = true.
Proof.
  destruct st as [|[|[|st]]]; simpl;
    repeat (case_match; simpl); split; (intros [? ?] || intros ?); try done; try lia.
Qed.

Lemma switch_ge st c : st ≤ (switch st c).1.
Proof. destruct st as [|[|[|st]]]; simpl; repeat case_match; simpl; lia. Qed.

Lemma switch_le st c : (switch st c).1 ≤ S st.
Proof. destruct st as [|[|[|st]]]; simpl; repeat case_match; simpl; lia. Qed.

Lemma switch_le3 st c : st ≤ 3 → (switch st c).1 ≤ 3.
Proof. destruct st as [|[|[|st]]]; simpl; repeat case_match; simpl; lia. Qed.

Lemma switch_mono st st' c : st ≤ st' → (switch st c).1 ≤ (switch st' c).1.
Proof.
  intros Hle.
  destruct st as [|[|[|st]]], st' as [|[|[|st']]]; simpl; try lia;
    destruct (is_break c) eqn:Hb; try rewrite (break_not_dot _ Hb);
    simpl; try lia; destruct (is_dot c); simpl; lia.
Qed.

Lemma sticky_nil st : sticky st [] = st.
Proof. done. Qed.

Lemma sticky_cons st c bs : sticky st (c :: bs) = sticky (switch st c).1 bs.
Proof. done. Qed.

Lemma sticky_app st bs bs' : sticky st (bs ++ bs') = sticky (sticky st bs) bs'.
Proof. apply fold_left_app. Qed.

Lemma sticky_snoc st bs c : sticky st (bs ++ [c]) = (switch (sticky st bs) c).1.
Proof. by rewrite sticky_app. Qed.

Lemma sticky_ge bs : ∀ st, st ≤ sticky st bs.
Proof.
  induction bs as [|c bs IH]; intros st; [done|].
  rewrite sticky_cons. etrans; [apply (switch_ge st c)|apply IH].
Qed.

Lemma sticky_le3 bs : ∀ st, st ≤ 3 → sticky st bs ≤ 3.
Proof.
  induction bs as [|c bs IH]; intros st Hst; [done|].
  rewrite sticky_cons. by apply IH, switch_le3.
Qed.

Lemma sticky_le_length bs : ∀ st, sticky st bs ≤ st + length bs.
Proof.
  induction bs as [|c bs IH]; intros st; simpl length.
  { rewrite sticky_nil. lia. }
  rewrite sticky_cons. pose proof (IH (switch st c).1). pose proof (switch_le st c). lia.
Qed.

Lemma sticky_mono bs : ∀ st st', st ≤ st' → sticky st bs ≤ sticky st' bs.
Proof.
  induction bs as [|c bs IH]; intros st st' Hle; [done|].
  rewrite !sticky_cons. by apply IH, switch_mono.
Qed.

(** A piece of a stream never gets further than the stream. *)
Lemma sticky_factor u v w : sticky 0 v ≤ sticky 0 (u ++ v ++ w).
Proof.
  rewrite !sticky_app. etrans; [|apply sticky_ge].
  apply sticky_mono. lia.
Qed.

(** While the state stays below 3 the loop runs through. *)
Lemma Loop_app bs : ∀ st n i rest,
  sticky st bs < 3 →
  Loop st n i (bs ++ rest) = Loop (sticky st bs) n (i + length bs) rest.
Proof.
  induction bs as [|c bs IH]; intros st n i rest Hlt; simpl.
  { by rewrite Nat.add_0_r. }
  rewrite sticky_cons in *.
  destruct (switch st c) as [st' brk] eqn:Hsw. simpl in *.
  destruct brk.
  - pose proof (proj1 (switch_break st c)) as Hb. rewrite Hsw in Hb.
    destruct (Hb eq_refl) as [-> Hc]. simpl in Hsw. rewrite Hc in Hsw.
    injection Hsw as <-. pose proof (sticky_ge bs 3). lia.
  - rewrite IH by done. f_equal. lia.
Qed.

Lemma Loop_through st n i bs :
  sticky st bs < 3 → Loop st n i bs = (sticky st bs, n).
Proof.
  intros Hlt. rewrite <-(app_nil_r bs) at 1. by rewrite Loop_app.
Qed.

(** The loop is left at the byte that completes the pattern. *)
Lemma Loop_stop bs st n i c rest :
  sticky st bs = 2 → is_break c = true →
  Loop st n i (bs ++ c :: rest) = (3, i + length bs + 1).
Proof.
  intros Hst Hc. rewrite Loop_app by lia. rewrite Hst. simpl. by rewrite Hc.
Qed.

Lemma Loop_bounds bs : ∀ st n i st' n',
  st ≤ i → st ≤ 2 → i + length bs = n →
  Loop st n i bs = (st', n') →
  st' = sticky st bs ∧ st' ≤ n' ∧ n' ≤ n ∧ (st' < 3 → n' = n) ∧ st' ≤ 3.
Proof.
  induction bs as [|c bs IH]; intros st n i st' n' Hi Hst Hn HL; simpl in *.
  { injection HL as <- <-. rewrite sticky_nil. repeat split; lia. }
  rewrite sticky_cons.
  destruct (switch st c) as [s1 brk] eqn:Hsw. simpl.
  pose proof (switch_le st c) as Hle. rewrite Hsw in Hle. simpl in Hle.
  destruct brk.
  - pose proof (proj1 (switch_break st c)) as Hb. rewrite Hsw in Hb.
    destruct (Hb eq_refl) as [-> Hc]. simpl in Hsw. rewrite Hc in Hsw.
    injection Hsw as <-. injection HL as <- <-.
    pose proof (sticky_ge bs 3). pose proof (sticky_le3 bs 3).
    repeat split; lia.
  - destruct (decide (s1 = 3)) as [->|Hne].
    + assert (st = 2) as -> by lia. simpl in Hsw.
      destruct (is_break c); simplify_eq.
    + eapply IH in HL; [|lia..]. destruct HL as (-> & ? & ? & ? & ?).
      repeat split; lia.
Qed.

Lemma Loop_result bs st' n' :
  Loop 0 (length bs) 0 bs = (st', n') →
  st' = sticky 0 bs ∧ st' ≤ n' ∧ n' ≤ length bs ∧ (st' < 3 → n' = length bs) ∧ st' ≤ 3.
Proof. apply Loop_bounds; lia. Qed.

End Scan.

(** ** One call of [Read] *)

Section ReadSpec.
Context {S : Type} `{Reader S}.
Implicit Types (d : dotStopReader S) (b : list byte).

Lemma length_carry d : state d ≤ 3 → length (carry d) = state d.
Proof. intros Hst. unfold carry. rewrite length_take, length_arr_list. lia. Qed.

Lemma Read_too_small d b : length b < 4 → Read d b = (Panicked too_small, d, b).
Proof. intros Hlen. unfold Read. by rewrite (proj2 (Nat.ltb_lt _ _) Hlen). Qed.

Lemma Read_done d b :
  4 ≤ length b → state d = 3 → Read d b = (Returned 0 (Some EOF), d, b).
Proof.
  intros Hlen Hst. unfold Read.
  rewrite (proj2 (Nat.ltb_ge _ _) Hlen), Hst. done.
Qed.

(** Below state 3 a read scans [carry d ++ data], where [data] is what the
    underlying reader returned; it delivers the scanned bytes but the last
    [st], which it keeps in [extra]. *)
Lemma Read_spec d b data err src st n :
  4 ≤ length b → state d ≤ 2 →
  io_read (r d) (length b - state d) = (data, err, src) →
  Loop 0 (length (carry d ++ data)) 0 (carry d ++ data) = (st, n) →
  ∃ d' b',
    Read d b = (Returned (n - st) (if 0 <? n - st then None else err), d', b')
    ∧ r d' = src ∧ state d' = st
    ∧ carry d' = take st (drop (n - st) (carry d ++ data))
    ∧ take (n - st) b' = take (n - st) (carry d ++ data)
    ∧ length b' = length b.
Proof.
  intros Hlen Hst Hio HL.
  pose proof (io_read_len (r d) (length b - state d)) as Hdata.
  rewrite Hio in Hdata. simpl in Hdata.
  pose proof (length_carry d ltac:(lia)) as Hcarry.
  pose proof (Loop_result _ _ _ HL) as (Hsticky & Hle & Hn & Hfull & Hst3).
  rewrite length_app, Hcarry in Hn, Hfull.
  unfold Read.
  rewrite (proj2 (Nat.ltb_ge _ _) Hlen).
  rewrite (proj2 (Nat.eqb_neq _ _)) by lia.
  rewrite slice_to_Some by (rewrite length_arr_list; lia).
  rewrite slice_from_Some by lia.
  fold (carry d). rewrite length_drop, Hio.
  rewrite (copy_fits b (carry d)) by lia. rewrite Hcarry.
  rewrite take_app_length' by done. rewrite drop_app_length' by done.
  rewrite (copy_fits _ data) by (rewrite length_drop; lia).
  rewrite drop_drop.
  set (rest := drop (state d + length data) b).
  assert (length rest = length b - (state d + length data)) as Hrest
    by (unfold rest; by rewrite length_drop).
  rewrite slice_to_Some by (rewrite !length_app; lia).
  replace (length data + state d) with (length (carry d ++ data))
    by (rewrite length_app; lia).
  rewrite app_assoc, take_app_length. rewrite HL.
  set (chunk := carry d ++ data) in *.
  assert (length chunk = state d + length data) as Hchunk
    by (unfold chunk; rewrite length_app; lia).
  assert (take (n - st) (chunk ++ rest) = take (n - st) chunk) as Htake
    by (rewrite take_app_le by lia; done).
  destruct (0 <? st) eqn:Hpos.
  - apply Nat.ltb_lt in Hpos.
    rewrite (proj2 (Nat.leb_le _ _) Hle).
    rewrite slice_from_Some by (rewrite length_app; lia).
    set (ex' := arr_of _).
    assert (take st (arr_list ex') = take st (drop (n - st) chunk)) as Hex.
    { unfold ex'. rewrite arr_list_of by (by rewrite length_copy, length_arr_list).
      unfold copy. rewrite length_arr_list.
      rewrite take_app_le by (rewrite length_take, length_drop, length_app; lia).
      rewrite take_take. replace (st `min` 3) with st by lia.
      rewrite drop_app_le by lia.
      rewrite take_app_le by (rewrite length_drop; lia). done. }
    destruct (0 <? n - st) eqn:Hn2;
      [|apply Nat.ltb_ge in Hn2; assert (n - st = 0) as Hz by lia;
        rewrite Hz in *];
      eexists _, _; (split; [reflexivity|]); simpl; unfold carry; simpl;
      rewrite ?length_app; repeat split; try done; lia.
  - apply Nat.ltb_ge in Hpos. assert (st = 0) as -> by lia.
    rewrite Nat.sub_0_r in *.
    destruct (0 <? n) eqn:Hn2;
      [|apply Nat.ltb_ge in Hn2; assert (n = 0) as Hz by lia;
        rewrite Hz in *];
      eexists _, _; (split; [reflexivity|]); simpl; unfold carry; simpl;
      rewrite ?length_app; repeat split; try done; lia.
Qed.

End ReadSpec.

(** ** One call, on the scanned bytes *)

Section Chunks.
Implicit Types (chunk bs : list byte).

Lemma scan_result chunk :
  kept chunk = sticky 0 chunk ∧ kept chunk ≤ (scan chunk).2
  ∧ (scan chunk).2 ≤ length chunk
  ∧ (kept chunk < 3 → (scan chunk).2 = length chunk) ∧ kept chunk ≤ 3.
Proof.
  unfold kept. destruct (scan chunk) as [st n] eqn:Hs.
  by apply Loop_result.
Qed.

Lemma kept_sticky chunk : kept chunk = sticky 0 chunk.
Proof. apply scan_result. Qed.

Lemma kept_le3 chunk : kept chunk ≤ 3.
Proof. apply scan_result. Qed.

Lemma given_prefix chunk : given chunk `prefix_of` chunk.
Proof. apply prefix_take. Qed.

Lemma length_given chunk : length (given chunk) = (scan chunk).2 - kept chunk.
Proof.
  pose proof (scan_result chunk) as (_ & ? & ? & _).
  unfold given. fold (kept chunk). rewrite length_take. lia.
Qed.

(** Unless the pattern was completed, nothing of the chunk is lost. *)
Lemma given_held chunk :
  kept chunk < 3 →
  given chunk ++ held chunk = chunk ∧ length (held chunk) = kept chunk.
Proof.
  intros Hlt. pose proof (scan_result chunk) as (_ & Hle & _ & Hn & _).
  specialize (Hn Hlt). unfold given, held. fold (kept chunk). rewrite Hn in *.
  assert (take (kept chunk) (drop (length chunk - kept chunk) chunk)
          = drop (length chunk - kept chunk) chunk) as ->.
  { apply take_ge. rewrite length_drop. lia. }
  split; [apply take_drop|]. rewrite length_drop. lia.
Qed.

(** The pattern completed: the three bytes that end at the byte where the
    loop was left are taken back, the rest of the chunk is dropped. *)
Lemma scan_stop bs c rest :
  sticky 0 bs = 2 → is_break c = true →
  kept (bs ++ c :: rest) = 3
  ∧ given (bs ++ c :: rest) = take (length bs - 2) bs.
Proof.
  intros Hst Hc.
  assert (scan (bs ++ c :: rest) = (3, length bs + 1)) as Hscan.
  { unfold scan. by rewrite (Loop_stop bs 0 _ 0 c rest). }
  pose proof (sticky_le_length bs 0) as Hlen.
  unfold kept, given. rewrite Hscan. simpl. split; [done|].
  replace (length bs + 1 - 3) with (length bs - 2) by lia.
  rewrite take_app_le by lia. done.
Qed.

End Chunks.

Section ReadChunks.
Context {S : Type} `{Reader S}.
Implicit Types (d : dotStopReader S) (b : list byte).

Lemma Read_scan d b data err src :
  4 ≤ length b → state d ≤ 2 →
  io_read (r d) (length b - state d) = (data, err, src) →
  ∃ d' b',
    Read d b = (Returned (length (given (carry d ++ data)))
                  (if 0 <? length (given (carry d ++ data)) then None else err),
                d', b')
    ∧ r d' = src ∧ state d' = kept (carry d ++ data)
    ∧ carry d' = held (carry d ++ data)
    ∧ take (length (given (carry d ++ data))) b' = given (carry d ++ data).
Proof.
  intros Hlen Hst Hio.
  destruct (scan (carry d ++ data)) as [st n] eqn:Hscan.
  destruct (Read_spec d b data err src st n Hlen Hst Hio Hscan)
    as (d' & b' & HR & Hr & Hs & Hc & Ht & _).
  exists d', b'. rewrite length_given. unfold given, held, kept.
  rewrite Hscan. simpl. done.
Qed.

End ReadChunks.

(** ** Runs of calls *)

Section Runs.
Context {S : Type} `{Reader S}.
Implicit Types (d : dotStopReader S) (b out : list byte).

Lemma latest_cons o x os : latest o (x :: os) = latest (Some x) os.
Proof.
  unfold latest. destruct os as [|y os]; [done|]. rewrite last_cons_cons.
  destruct (last (y :: os)) eqn:Hl; [done|]. by apply last_None in Hl.
Qed.

(** A property of the bytes delivered so far, the latest outcome and the
    reader that every call into a buffer of at least four bytes keeps,
    holds after every run of such calls, and no call of the run panics. *)
Lemma run_invariant (Inv : list byte → option outcome → dotStopReader S → Prop) :
  (∀ out o d b, Inv out o d → 4 ≤ length b →
     ∃ n e d' b', Read d b = (Returned n e, d', b')
                  ∧ Inv (out ++ take n b') (Some (Returned n e)) d') →
  ∀ bufs out o d os out' d',
    Forall (λ b, 4 ≤ length b) bufs → Inv out o d →
    run d bufs = (os, out', d') →
    length os = length bufs ∧ Forall returned os
    ∧ Inv (out ++ out') (latest o os) d'.
Proof.
  intros Hstep bufs.
  induction bufs as [|b bufs IH]; intros out o d os out' d' Hbufs Hinv Hrun.
  { simpl in Hrun. simplify_eq. rewrite app_nil_r. done. }
  apply Forall_cons in Hbufs as [Hb Hbufs].
  destruct (Hstep out o d b Hinv Hb) as (n & e & d1 & b1 & HR & Hinv1).
  simpl in Hrun. rewrite HR in Hrun.
  destruct (run d1 bufs) as [[os1 out1] d2] eqn:Hrun1. simplify_eq.
  destruct (IH _ _ _ _ _ _ Hbufs Hinv1 Hrun1) as (Hlen & Hret & Hinv2).
  simpl. rewrite latest_cons, app_assoc. split; [by f_equal|].
  split; [|done]. apply Forall_cons. split; [by exists n, e|done].
Qed.

(** In state 3 nothing happens any more. *)
Lemma run_done d bufs :
  state d = 3 → Forall (λ b, 4 ≤ length b) bufs →
  run d bufs = (replicate (length bufs) (Returned 0 (Some EOF)), [], d).
Proof.
  intros Hdone Hbufs. induction bufs as [|b bufs IH]; [done|].
  apply Forall_cons in Hbufs as [Hb Hbufs].
  simpl. rewrite Read_done by done. rewrite (IH Hbufs). done.
Qed.

End Runs.

(** ** Runs over a stream handed out in pieces *)

Section ChunkRuns.
Implicit Types (d : dotStopReader ChunkSource) (b out : list byte).

Lemma chunk_read_spec (s : ChunkSource) cap data err s' :
  chunk_read s cap = (data, err, s') →
  data ++ s'.1 = s.1 ∧ s'.2 = tail s.2
  ∧ (err = None ∧ s.1 ≠ [] ∨ err = Some EOF ∧ s.1 = [] ∧ data = [])
  ∧ (Forall (λ k, 1 ≤ k) s.2 → 1 ≤ cap → s.1 ≠ [] → data ≠ []).
Proof.
  destruct s as [rem sched]. unfold chunk_read. simpl.
  destruct rem as [|c rem]; intros Heq; simplify_eq; simpl.
  { repeat split; try done. by right. }
  rewrite take_drop. repeat split; [by left|].
  intros Hsched Hcap _.
  assert (1 ≤ hd cap sched `min` cap) as Hk.
  { destruct sched as [|k sched]; simpl; [lia|].
    apply Forall_cons in Hsched as [? _]. lia. }
  destruct (hd cap sched `min` cap); [lia|done].
Qed.

(** One call below state 3, on a stream handed out in pieces. *)
Lemma Read_chunk d b :
  4 ≤ length b → state d ≤ 2 →
  ∃ data err d' b',
    Read d b = (Returned (length (given (carry d ++ data)))
                  (if 0 <? length (given (carry d ++ data)) then None else err),
                d', b')
    ∧ state d' = kept (carry d ++ data)
    ∧ carry d' = held (carry d ++ data)
    ∧ take (length (given (carry d ++ data))) b' = given (carry d ++ data)
    ∧ data ++ (r d').1 = (r d).1 ∧ (r d').2 = tail (r d).2
    ∧ (err = None ∧ (r d).1 ≠ [] ∨ err = Some EOF ∧ (r d).1 = [] ∧ data = [])
    ∧ (Forall (λ k, 1 ≤ k) (r d).2 → (r d).1 ≠ [] → data ≠ []).
Proof.
  intros Hlen Hst.
  destruct (chunk_read (r d) (length b - state d)) as [[data err] src] eqn:Hio.
  pose proof (Read_scan d b data err src Hlen Hst) as HR.
  destruct (HR Hio) as (d' & b' & HR' & Hr & Hs & Hc & Ht). clear HR.
  apply chunk_read_spec in Hio as (Hdata & Hsched & Herr & Hprog).
  exists data, err, d', b'. rewrite Hr.
  repeat split; try done. intros Hk. apply Hprog; [done|lia].
Qed.

End ChunkRuns.

(** ** Nothing is lost, doubled or reordered between calls *)

Section Conservation.
Variable input : list byte.
Implicit Types (d : dotStopReader ChunkSource) (b out : list byte).

Lemma conserved_new sched : conserved input [] None (newDotStop (input, sched)).
Proof.
  unfold conserved. simpl. split; [lia|]. split; [apply prefix_nil|done].
Qed.

Lemma conserved_step out o d b :
  conserved input out o d → 4 ≤ length b →
  ∃ n e d' b', Read d b = (Returned n e, d', b')
               ∧ conserved input (out ++ take n b') (Some (Returned n e)) d'.
Proof.
  intros (Hst & Hpre & Hall) Hlen.
  destruct (decide (state d = 3)) as [Hdone|Hnot].
  { exists 0, (Some EOF), d, b. rewrite Read_done by done.
    rewrite take_0, app_nil_r. repeat split; try done. }
  destruct (Read_chunk d b Hlen ltac:(lia))
    as (data & err & d' & b' & HR & Hs & Hc & Ht & Hdata & _).
  specialize (Hall ltac:(lia)).
  eexists _, _, d', b'. split; [exact HR|]. rewrite Ht.
  assert (out ++ (carry d ++ data) ++ (r d').1 = input) as Hin.
  { rewrite <-Hall, <-Hdata. by rewrite <-!app_assoc. }
  repeat split.
  - rewrite Hs. apply kept_le3.
  - rewrite <-Hin. apply prefix_app, prefix_app_r, given_prefix.
  - intros Hlt. rewrite Hs in Hlt.
    destruct (given_held _ Hlt) as [Hgh _].
    rewrite Hc, <-app_assoc, (app_assoc (given _)), Hgh. exact Hin.
Qed.

End Conservation.

(** ** Where the scan gets on which input *)

Section Shapes.
Implicit Types (bs : list byte) (c : byte).

Lemma is_dot_eq c : is_dot c = true → c = DOT.
Proof. apply byte_dec_bl. Qed.

Lemma sticky_has_break bs : 1 ≤ sticky 0 bs → has_break bs.
Proof.
  induction bs as [|c bs IH] using rev_ind; [rewrite sticky_nil; lia|].
  rewrite sticky_snoc. intros Hst.
  destruct (decide (1 ≤ sticky 0 bs)) as [Hge|Hlt].
  - destruct (IH Hge) as (u & b & v & -> & Hb).
    exists u, b, (v ++ [c]). by rewrite <-app_assoc.
  - assert (sticky 0 bs = 0) as Hz by lia. rewrite Hz in Hst. simpl in Hst.
    destruct (is_break c) eqn:Hc; simpl in Hst; [|lia].
    by exists bs, c, [].
Qed.

Lemma sticky_dot_after_break bs : 2 ≤ sticky 0 bs → dot_after_break bs.
Proof.
  induction bs as [|c bs IH] using rev_ind; [rewrite sticky_nil; lia|].
  rewrite sticky_snoc. intros Hst.
  destruct (decide (2 ≤ sticky 0 bs)) as [Hge|Hlt].
  - destruct (IH Hge) as (u & b & v & w & -> & Hb).
    exists u, b, v, (w ++ [c]). split; [|done].
    by rewrite <-!app_assoc, <-!app_comm_cons, <-!app_assoc.
  - pose proof (switch_le (sticky 0 bs) c).
    assert (sticky 0 bs = 1) as H1 by lia. rewrite H1 in Hst. simpl in Hst.
    destruct (is_dot c) eqn:Hc; simpl in Hst; [|lia].
    apply is_dot_eq in Hc as ->.
    destruct (sticky_has_break bs ltac:(lia)) as (u & b & v & -> & Hb).
    exists u, b, v, []. split; [|done].
    by rewrite <-!app_assoc, <-!app_comm_cons.
Qed.

Lemma sticky_scattered bs : 3 ≤ sticky 0 bs → scattered bs.
Proof.
  induction bs as [|c bs IH] using rev_ind; [rewrite sticky_nil; lia|].
  rewrite sticky_snoc. intros Hst.
  destruct (decide (3 ≤ sticky 0 bs)) as [Hge|Hlt].
  - destruct (IH Hge) as (u & b1 & v & w & b2 & x & -> & Hb1 & Hb2).
    exists u, b1, v, w, b2, (x ++ [c]). split; [|done].
    by rewrite <-!app_assoc, <-!app_comm_cons, <-!app_assoc,
      <-!app_comm_cons, <-!app_assoc.
  - pose proof (switch_le (sticky 0 bs) c).
    assert (sticky 0 bs = 2) as H2 by lia. rewrite H2 in Hst. simpl in Hst.
    destruct (is_break c) eqn:Hc; simpl in Hst; [|lia].
    destruct (sticky_dot_after_break bs ltac:(lia)) as (u & b & v & w & -> & Hb).
    exists u, b, v, w, c, []. split; [|done].
    by rewrite <-!app_assoc, <-!app_comm_cons, <-!app_assoc.
Qed.

Lemma scattered_sticky bs : scattered bs → 3 ≤ sticky 0 bs.
Proof.
  intros (u & b1 & v & w & b2 & x & -> & Hb1 & Hb2).
  rewrite sticky_app, sticky_cons, sticky_app, sticky_cons, sticky_app,
    sticky_cons.
  etrans; [|apply sticky_ge].
  assert (1 ≤ (switch (sticky 0 u) b1).1) as H1.
  { etrans; [|apply (switch_mono 0); lia]. simpl. by rewrite Hb1. }
  assert (2 ≤ (switch (sticky (switch (sticky 0 u) b1).1 v) DOT).1) as H2.
  { etrans; [|apply (switch_mono 1)]; [done|].
    etrans; [exact H1|apply sticky_ge]. }
  etrans; [|apply (switch_mono 2)]; [simpl; by rewrite Hb2|].
  etrans; [exact H2|apply sticky_ge].
Qed.

Lemma not_scattered_sticky bs : ¬ scattered bs → sticky 0 bs ≤ 2.
Proof.
  intros Hno. destruct (decide (3 ≤ sticky 0 bs)) as [Hge|]; [|lia].
  by apply sticky_scattered in Hge.
Qed.

Lemma no_dot_after_break_sticky bs : ¬ dot_after_break bs → sticky 0 bs ≤ 1.
Proof.
  intros Hno. destruct (decide (2 ≤ sticky 0 bs)) as [Hge|]; [|lia].
  by apply sticky_dot_after_break in Hge.
Qed.

Lemma sticky_prefix bs bs' st : sticky st bs ≤ sticky st (bs ++ bs').
Proof. rewrite sticky_app. apply sticky_ge. Qed.

Lemma sticky_suffix bs bs' : sticky 0 bs' ≤ sticky 0 (bs ++ bs').
Proof. rewrite sticky_app. apply sticky_mono. lia. Qed.

Lemma sticky_ends_break bs : ends_break bs → sticky 0 bs = 1 ∨ 3 ≤ sticky 0 bs.
Proof.
  intros (u & b & -> & Hb). rewrite sticky_snoc.
  pose proof (sticky_le3 u 0 ltac:(lia)).
  destruct (sticky 0 u) as [|[|[|n]]]; simpl; rewrite ?Hb, ?(break_not_dot _ Hb);
    simpl; lia.
Qed.

Lemma sticky_ends_break_dot bs :
  ends_break_dot bs → sticky 0 bs = 2 ∨ 3 ≤ sticky 0 bs.
Proof.
  intros (u & b & -> & Hb).
  change [b; DOT] with ([b] ++ [DOT]). rewrite app_assoc, !sticky_snoc.
  pose proof (sticky_le3 u 0 ltac:(lia)).
  destruct (sticky 0 u) as [|[|[|n]]]; simpl; rewrite ?Hb, ?(break_not_dot _ Hb);
    simpl; lia.
Qed.

End Shapes.

(** ** Every run comes to an end *)

Section Progress.
Implicit Types (d : dotStopReader ChunkSource) (b out : list byte).

Lemma kept_le_length chunk : kept chunk ≤ length chunk.
Proof. pose proof (scan_result chunk) as (_ & ? & ? & _). lia. Qed.

Lemma at_eof_Read d b :
  at_eof d → 4 ≤ length b →
  ∃ d' b', Read d b = (Returned 0 (Some EOF), d', b')
           ∧ at_eof d' ∧ state d' = state d ∧ carry d' = carry d
           ∧ (r d').1 = (r d).1.
Proof.
  intros [Hdone|(Hst & Hrem & Hgiven)] Hlen.
  { exists d, b. rewrite Read_done by done. repeat split. by left. }
  destruct (Read_chunk d b Hlen Hst)
    as (data & err & d' & b' & HR & Hs & Hc & Ht & Hdata & _ & Herr & _).
  rewrite Hrem in Hdata. apply app_eq_nil in Hdata as [-> Hrem'].
  destruct Herr as [[_ ?]|(-> & _ & _)]; [done|].
  rewrite app_nil_r in *. rewrite Hgiven in HR. simpl in HR.
  pose proof (kept_le_length (carry d)) as Hk.
  rewrite length_carry in Hk by lia.
  destruct (given_held (carry d) ltac:(lia)) as [Hgh Hlh].
  rewrite Hgiven in Hgh. simpl in Hgh.
  assert (kept (carry d) = state d) as Hkept.
  { rewrite <-Hlh, Hgh. apply length_carry. lia. }
  exists d', b'. split; [done|].
  assert (carry d' = carry d) as Hc' by (by rewrite Hc).
  repeat split; try congruence.
  right. rewrite Hc', Hs, Hkept. done.
Qed.

Lemma at_eof_run bufs : ∀ d os out d',
  at_eof d → Forall (λ b, 4 ≤ length b) bufs →
  run d bufs = (os, out, d') →
  Forall (λ o, o = Returned 0 (Some EOF)) os ∧ length os = length bufs
  ∧ out = [] ∧ at_eof d' ∧ state d' = state d ∧ (r d').1 = (r d).1.
Proof.
  induction bufs as [|b bufs IH]; intros d os out d' Heof Hbufs Hrun.
  { simpl in Hrun. by simplify_eq. }
  apply Forall_cons in Hbufs as [Hb Hbufs].
  destruct (at_eof_Read d b Heof Hb) as (d1 & b1 & HR & Heof1 & Hs1 & _ & Hr1).
  simpl in Hrun. rewrite HR in Hrun.
  destruct (run d1 bufs) as [[os1 out1] d2] eqn:Hrun1. simplify_eq.
  destruct (IH _ _ _ _ Heof1 Hbufs Hrun1) as (Hos & Hlen & -> & Heof2 & Hs2 & Hr2).
  repeat split; try done; try congruence.
  - by apply Forall_cons.
  - simpl. by rewrite Hlen.
Qed.

(** With every read of the stream making progress, a run of more than
    [3 * length input] calls ends with a call that returns [io.EOF]. *)
Lemma run_reaches_eof bufs : ∀ d os out d',
  state d ≤ 2 → Forall (λ k, 1 ≤ k) (r d).2 →
  Forall (λ b, 4 ≤ length b) bufs →
  3 * length (r d).1 + state d < length bufs →
  run d bufs = (os, out, d') →
  last os = Some (Returned 0 (Some EOF)) ∧ at_eof d'.
Proof.
  induction bufs as [|b bufs IH]; intros d os out d' Hst Hsched Hbufs Hfuel Hrun.
  { simpl in Hfuel. lia. }
  destruct (decide (at_eof d)) as [Heof|Hnot].
  { destruct (at_eof_run _ _ _ _ _ Heof Hbufs Hrun) as (Hos & Hlen & _ & Heof' & _).
    split; [|done].
    destruct (last os) as [o|] eqn:Hlast.
    - rewrite Forall_forall in Hos. f_equal. apply Hos.
      by apply last_Some_elem_of.
    - apply last_None in Hlast. subst os. done. }
  apply Forall_cons in Hbufs as [Hb Hbufs].
  destruct (Read_chunk d b Hb Hst)
    as (data & err & d1 & b1 & HR & Hs & Hc & Ht & Hdata & Hsch & Herr & Hprog).
  simpl in Hrun, Hfuel. rewrite HR in Hrun.
  destruct (run d1 bufs) as [[os1 out1] d2] eqn:Hrun1. simplify_eq.
  pose proof (kept_le_length (carry d ++ data)) as Hk.
  rewrite length_app, length_carry in Hk by lia.
  assert (length data + length (r d1).1 = length (r d).1) as Hlen
    by (by rewrite <-Hdata, length_app).
  assert (Forall (λ k, 1 ≤ k) (r d1).2) as Hsched1.
  { rewrite Hsch. destruct (r d).2; [done|]. by apply Forall_cons in Hsched as [_ ?]. }
  assert (os1 ≠ [] → last (Returned (length (given (carry d ++ data)))
            (if 0 <? length (given (carry d ++ data)) then None else err) :: os1)
          = last os1) as Hlast.
  { destruct os1; [done|]. intros _. apply last_cons_cons. }
  assert (state d1 = 3 ∨ state d1 ≠ 3
            ∧ 3 * length (r d1).1 + state d1 < 3 * length (r d).1 + state d)
    as [Hdone|[Hne Hless]].
  { destruct (decide (state d1 = 3)) as [|Hne]; [by left|right; split; [done|]].
    pose proof (kept_le3 (carry d ++ data)).
    destruct (decide ((r d).1 = [])) as [Hnil|Hsome].
    - destruct Herr as [[_ ?]|(_ & _ & ->)]; [done|].
      rewrite app_nil_r in *.
      destruct (given_held (carry d) ltac:(lia)) as [Hgh Hlh].
      assert (given (carry d) ≠ []) as Hg.
      { intros Hg. apply Hnot. right. done. }
      assert (length (given (carry d)) + length (held (carry d)) = state d) as Hsum.
      { rewrite <-length_app, Hgh. apply length_carry. lia. }
      destruct (given (carry d)); [done|]. simpl in *. lia.
    - specialize (Hprog Hsched Hsome).
      destruct data; [done|]. simpl in *. lia. }
  - assert (at_eof d1) as Heof1 by (by left).
    destruct (at_eof_run _ _ _ _ _ Heof1 Hbufs Hrun1) as (Hos & Hlen1 & _ & Heof' & _).
    split; [|done].
    assert (os1 ≠ []) as Hne.
    { intros ->. simpl in Hlen1.
      rewrite Hs in Hdone. rewrite Hdone in Hk. lia. }
    rewrite Hlast by done.
    destruct (last os1) as [o|] eqn:Hl.
    + rewrite Forall_forall in Hos. f_equal. apply Hos.
      by apply last_Some_elem_of.
    + by apply last_None in Hl.
  - pose proof (kept_le3 (carry d ++ data)).
    assert (state d1 ≤ 2) as Hst1.
    { rewrite Hs in *. lia. }
    destruct (IH d1 os1 out1 d' Hst1 Hsched1 Hbufs ltac:(lia) Hrun1) as [Hl Heof'].
    split; [|done]. rewrite Hlast; [done|]. intros ->. done.
Qed.

End Progress.

(** ** The end of a stream *)

Section Endings.
Implicit Types (bs u out chunk : list byte) (c : byte).

Lemma ends_break_app out chunk :
  chunk ≠ [] → ends_break (out ++ chunk) → ends_break chunk.
Proof.
  intros Hne (u & b & Heq & Hb).
  destruct (exists_last Hne) as (chunk0 & c & ->).
  rewrite app_assoc in Heq. apply app_inj_tail in Heq as [_ ->].
  by exists chunk0, b.
Qed.

Lemma ends_break_dot_app out chunk :
  2 ≤ length chunk → ends_break_dot (out ++ chunk) → ends_break_dot chunk.
Proof.
  intros Hlen (u & b & Heq & Hb).
  rewrite <-(take_drop (length chunk - 2) chunk) in Heq.
  rewrite app_assoc in Heq. apply app_inj_2 in Heq as [_ Heq].
  - exists (take (length chunk - 2) chunk), b. split; [|done].
    by rewrite <-Heq, take_drop.
  - rewrite length_drop. simpl. lia.
Qed.

Lemma ends_break_dot_snoc out c :
  ends_break_dot (out ++ [c]) → c = DOT ∧ ends_break out.
Proof.
  intros (u & b & Heq & Hb).
  change [b; DOT] with ([b] ++ [DOT]) in Heq. rewrite app_assoc in Heq.
  apply app_inj_tail in Heq as [-> ->]. split; [done|]. by exists u, b.
Qed.

Lemma trailing_snoc_break u c : is_break c = true → trailing (u ++ [c]) = 1.
Proof. intros Hc. unfold trailing. rewrite rev_unit. by rewrite Hc. Qed.

Lemma trailing_snoc_break_dot u b c :
  is_break b = true → is_dot c = true → trailing (u ++ [b; c]) = 2.
Proof.
  intros Hb Hc. unfold trailing.
  change [b; c] with ([b] ++ [c]). rewrite app_assoc, !rev_unit.
  destruct (is_break c) eqn:Hbc.
  - apply break_not_dot in Hbc. congruence.
  - by rewrite Hb, Hc.
Qed.

Lemma trailing_cases bs :
  trailing bs = 0 ∨ (trailing bs = 1 ∧ ends_break bs)
  ∨ (trailing bs = 2 ∧ ends_break_dot bs).
Proof.
  destruct bs as [|c0 bs0] using rev_ind; [by left|]. clear IHbs0.
  unfold trailing. rewrite rev_unit.
  destruct (is_break c0) eqn:Hc0.
  { right; left. split; [done|]. by exists bs0, c0. }
  destruct bs0 as [|b bs1 _] using rev_ind; [by left|].
  rewrite rev_unit.
  destruct (is_dot c0) eqn:Hd; simpl; [|by left].
  destruct (is_break b) eqn:Hb; simpl; [|by left].
  right; right. split; [done|]. exists bs1, b. split; [|done].
  apply is_dot_eq in Hd as ->. by rewrite <-app_assoc.
Qed.

Lemma trailing_0 bs : ¬ ends_break bs → ¬ ends_break_dot bs → trailing bs = 0.
Proof. destruct (trailing_cases bs) as [?|[[_ ?]|[_ ?]]]; done. Qed.

Lemma body_app out held :
  trailing (out ++ held) = length held → body (out ++ held) = out.
Proof.
  intros Ht. unfold body. rewrite Ht, length_app.
  replace (length out + length held - length held) with (length out) by lia.
  by rewrite take_app_length.
Qed.

Lemma split_at pre out rest1 rest2 :
  out ++ rest1 = pre ++ rest2 → length out ≤ length pre →
  ∃ mid, pre = out ++ mid ∧ rest1 = mid ++ rest2.
Proof.
  intros Heq Hlen. apply app_eq_inv in Heq as [(k & -> & Hk)|(k & -> & Hk)].
  - rewrite length_app in Hlen. destruct k; [|simpl in Hlen; lia].
    exists []. rewrite !app_nil_r. simpl in Hk. done.
  - by exists k.
Qed.

End Endings.

(** ** Input on which the pattern is never completed *)

Section Passthrough.
Variable input : list byte.
Hypothesis never_completed : sticky 0 input ≤ 2.
Implicit Types (d : dotStopReader ChunkSource) (b out : list byte).

Lemma passing_new sched : passing input [] None (newDotStop (input, sched)).
Proof.
  clear never_completed.
  unfold passing, carry. simpl. repeat split; try done; try lia.
  - intros (u & b & Heq & _). by destruct u.
  - intros (u & b & Heq & _). by destruct u.
Qed.

(** Held bytes that a rescan does not give away are the start of the
    pattern. *)
Lemma held_is_trailing out held :
  length held ≤ 2 → kept held = length held →
  (ends_break (out ++ held) → 1 ≤ length held) →
  (ends_break_dot (out ++ held) → length held = 2) →
  trailing (out ++ held) = length held.
Proof.
  intros Hlen Hkept Hb Hbd. rewrite kept_sticky in Hkept.
  destruct held as [|x [|y [|z held]]]; simpl in *; [| | |lia].
  - apply trailing_0; intros Hends.
    + specialize (Hb Hends). lia.
    + specialize (Hbd Hends). lia.
  - apply trailing_snoc_break. unfold sticky in Hkept. simpl in Hkept.
    destruct (is_break x); [done|]. simpl in Hkept. lia.
  - unfold sticky in Hkept. simpl in Hkept.
    destruct (is_break x) eqn:Hx; simpl in Hkept.
    + destruct (is_dot y) eqn:Hy; simpl in Hkept; [|lia].
      by apply trailing_snoc_break_dot.
    + destruct (is_break y); simpl in Hkept; lia.
Qed.

Lemma passing_step out o d b :
  passing input out o d → 4 ≤ length b →
  ∃ n e d' b', Read d b = (Returned n e, d', b')
               ∧ passing input (out ++ take n b') (Some (Returned n e)) d'.
Proof.
  intros (Hst & Hall & Hb & Hbd & _) Hlen.
  destruct (Read_chunk d b Hlen Hst)
    as (data & err & d' & b' & HR & Hs & Hc & Ht & Hdata & _ & Herr & _).
  eexists _, _, d', b'. split; [exact HR|]. rewrite Ht.
  set (chunk := carry d ++ data) in *.
  pose proof (length_carry d ltac:(lia)) as Hlc.
  assert (out ++ chunk ++ (r d').1 = input) as Hin.
  { rewrite <-Hall, <-Hdata. unfold chunk. by rewrite <-!app_assoc. }
  assert (kept chunk ≤ 2) as Hk.
  { rewrite kept_sticky. etrans; [|exact never_completed].
    rewrite <-Hin. apply sticky_factor. }
  destruct (given_held chunk ltac:(lia)) as [Hgh Hlh].
  assert ((out ++ given chunk) ++ carry d' = out ++ chunk) as Hcons.
  { by rewrite Hc, <-app_assoc, Hgh. }
  split; [by rewrite Hs|]. split; [by rewrite <-app_assoc, Hc, (app_assoc (given _)), Hgh|].
  rewrite Hcons, Hs. split; [|split].
  - intros Hends.
    assert (chunk ≠ []) as Hne.
    { intros Hnil. rewrite Hnil, app_nil_r in Hends.
      apply app_eq_nil in Hnil as [Hnil _].
      rewrite Hnil, app_nil_r in Hb. specialize (Hb Hends).
      rewrite Hnil in Hlc. simpl in Hlc. lia. }
    apply ends_break_app, sticky_ends_break in Hends; [|done].
    rewrite kept_sticky. lia.
  - intros Hends.
    assert (2 ≤ length chunk) as Hlen2.
    { unfold chunk in *. rewrite length_app, Hlc.
      destruct data as [|x [|y data]]; simpl; [| |lia].
      - rewrite app_nil_r in Hends. specialize (Hbd Hends). lia.
      - rewrite app_assoc in Hends.
        apply ends_break_dot_snoc in Hends as [_ Hends].
        specialize (Hb Hends). lia. }
    apply ends_break_dot_app, sticky_ends_break_dot in Hends; [|done].
    rewrite kept_sticky in *. lia.
  - intros n e Heq.
    destruct (0 <? length (given chunk)) eqn:Hpos; [done|].
    apply Nat.ltb_ge in Hpos. injection Heq as Hn He.
    destruct Herr as [[? _]|(-> & Hnil & Hd)]; [congruence|].
    injection He as <-.
    assert (given chunk = []) as Hg by (destruct (given chunk); [done|simpl in *; lia]).
    rewrite Hnil in Hdata. apply app_eq_nil in Hdata as [_ Hrem].
    repeat split; [lia|done|].
    rewrite Hg, app_nil_r in *. simpl in Hgh.
    rewrite Hrem, app_nil_r in Hin. rewrite <-Hin.
    unfold chunk in *. rewrite Hd, app_nil_r in *.
    symmetry. apply body_app. rewrite Hgh in Hlh.
    apply held_is_trailing; try done; try lia.
    + intros Hends. rewrite Hlc. by apply Hb.
    + intros Hends. rewrite Hlc. by apply Hbd.
Qed.

(** What has been delivered never reaches into the start of a pattern
    at the end of the stream. *)
Lemma passing_prefix out o d : passing input out o d → out `prefix_of` body input.
Proof.
  intros (Hst & Hall & Hb & Hbd & _).
  pose proof (length_carry d ltac:(lia)) as Hlc.
  assert (length out + trailing input ≤ length input) as Hlen.
  { assert (length input = length out + state d + length (r d).1) as Hl.
    { rewrite <-Hall, !length_app. lia. }
    destruct (trailing_cases input) as [->|[[-> Hends]|[-> Hends]]]; [lia| |].
    - destruct (r d).1 as [|x rest] eqn:Hrem; simpl in *; [|lia].
      rewrite <-Hall, app_nil_r in Hends. specialize (Hb Hends). lia.
    - destruct (r d).1 as [|x [|y rest]] eqn:Hrem; simpl in *; [| |lia].
      + rewrite <-Hall, app_nil_r in Hends. specialize (Hbd Hends). lia.
      + rewrite <-Hall, app_assoc in Hends.
        apply ends_break_dot_snoc in Hends as [_ Hends].
        specialize (Hb Hends). lia. }
  unfold body. rewrite <-Hall at 3.
  exists (take (length input - trailing input - length out) (carry d ++ (r d).1)).
  rewrite take_app_ge by lia. done.
Qed.

End Passthrough.

(** ** Input that ends at a terminator *)

Section Stops.
Variables (pre post : list byte) (b1 b2 : byte).
Hypothesis break1 : is_break b1 = true.
Hypothesis break2 : is_break b2 = true.
Hypothesis no_dot_before : sticky 0 pre ≤ 1.
Implicit Types (d : dotStopReader ChunkSource) (b out chunk : list byte).

Let input : list byte := pre ++ b1 :: DOT :: b2 :: post.

Lemma stopping_new sched : stopping pre input [] None (newDotStop (input, sched)).
Proof.
  clear break1 break2 no_dot_before.
  right. unfold carry. simpl. split; [lia|]. split; [done|].
  split; [lia|]. split; [lia|]. intros n e Heq. discriminate Heq.
Qed.

Lemma chunk_cases chunk rest c0 :
  chunk ++ rest = c0 ++ b1 :: DOT :: b2 :: post →
  (∃ k, c0 = chunk ++ k) ∨ chunk = c0 ++ [b1] ∨ chunk = c0 ++ [b1; DOT]
  ∨ ∃ post', chunk = c0 ++ b1 :: DOT :: b2 :: post'.
Proof.
  intros Heq. apply app_eq_inv in Heq as [(k & -> & Hk)|(k & -> & _)].
  - destruct k as [|x [|y [|z k]]]; simpl in Hk; simplify_eq.
    + left. exists []. by rewrite !app_nil_r.
    + right; left. done.
    + right; right; left. done.
    + right; right; right. by exists k.
  - left. by exists k.
Qed.

Lemma sticky_upto_break c0 : sticky 0 c0 ≤ 1 → sticky 0 (c0 ++ [b1]) = 1.
Proof.
  intros Hc0. rewrite sticky_snoc.
  destruct (sticky 0 c0) as [|[|n]]; simpl;
    rewrite ?break1, ?(break_not_dot _ break1); simpl; lia.
Qed.

Lemma sticky_upto_dot c0 : sticky 0 c0 ≤ 1 → sticky 0 (c0 ++ [b1; DOT]) = 2.
Proof.
  intros Hc0. change [b1; DOT] with ([b1] ++ [DOT]).
  rewrite app_assoc, sticky_snoc, sticky_upto_break by done. done.
Qed.

Lemma stopping_step out o d b :
  stopping pre input out o d → 4 ≤ length b →
  ∃ n e d' b', Read d b = (Returned n e, d', b')
               ∧ stopping pre input (out ++ take n b') (Some (Returned n e)) d'.
Proof.
  intros [(Hdone & -> & _)|(Hst & Hall & Hout & Hread & _)] Hlen.
  { exists 0, (Some EOF), d, b. rewrite Read_done by done.
    rewrite take_0, app_nil_r. split; [done|]. left.
    split; [done|]. split; [done|]. intros n e Heq. by simplify_eq. }
  destruct (Read_chunk d b Hlen Hst)
    as (data & err & d' & b' & HR & Hs & Hc & Ht & Hdata & _ & Herr & _).
  assert (err = None) as ->.
  { destruct Herr as [[? _]|(_ & Hnil & _)]; [done|].
    assert (length input = length (out ++ carry d)) as Hli
      by (by rewrite <-Hall, Hnil, app_nil_r).
    unfold input in Hli. rewrite length_app in Hli. simpl in Hli. lia. }
  assert (∀ n e, Some (Returned (length (given (carry d ++ data)))
                   (if 0 <? length (given (carry d ++ data)) then None else None))
                 ≠ Some (Returned n (Some e))) as Hnone.
  { intros n e Heq. by destruct (0 <? length (given (carry d ++ data))). }
  eexists _, _, d', b'. split; [exact HR|]. rewrite Ht.
  pose proof (length_carry d ltac:(lia)) as Hlc.
  set (chunk := carry d ++ data) in *.
  assert (out ++ chunk ++ (r d').1 = input) as Hin.
  { rewrite <-Hall, <-Hdata. unfold chunk. by rewrite <-!app_assoc. }
  destruct (split_at _ _ _ _ Hin Hout) as (c0 & Hpre & Hc0).
  assert (sticky 0 c0 ≤ 1) as Hs0.
  { etrans; [|exact no_dot_before]. rewrite Hpre. apply sticky_suffix. }
  assert (length pre = length out + length c0) as Hlpre
    by (by rewrite Hpre, length_app).
  assert (kept chunk = 3 ∧ given chunk = c0
          ∨ kept chunk ≤ 2 ∧ length chunk ≤ length c0 + kept chunk) as Hcases.
  { destruct (chunk_cases _ _ _ Hc0) as [(k & Hk)|[Hk|[Hk|(post' & Hk)]]].
    - right. rewrite kept_sticky. split.
      + pose proof (sticky_prefix chunk k 0) as Hp. rewrite <-Hk in Hp. lia.
      + rewrite Hk, length_app. lia.
    - right. rewrite kept_sticky, Hk, sticky_upto_break by done.
      rewrite length_app. simpl. lia.
    - right. rewrite kept_sticky, Hk, sticky_upto_dot by done.
      rewrite length_app. simpl. lia.
    - left. rewrite Hk.
      change (c0 ++ b1 :: DOT :: b2 :: post')
        with (c0 ++ [b1; DOT] ++ b2 :: post').
      rewrite app_assoc.
      destruct (scan_stop (c0 ++ [b1; DOT]) b2 post') as [Hkept Hgiven];
        [by apply sticky_upto_dot|done|].
      split; [done|]. rewrite Hgiven, length_app. simpl.
      replace (length c0 + 2 - 2) with (length c0) by lia.
      by rewrite take_app_length. }
  destruct Hcases as [[Hk3 Hg]|[Hk2 Hlchunk]].
  { left. split; [congruence|]. split; [by rewrite Hg, Hpre|].
    intros n e Heq. by apply Hnone in Heq. }
  right. destruct (given_held chunk ltac:(lia)) as [Hgh Hlh].
  assert (length (given chunk) + kept chunk = length chunk) as Hsum
    by (by rewrite <-Hlh, <-length_app, Hgh).
  split; [by rewrite Hs|].
  split; [by rewrite <-app_assoc, Hc, (app_assoc (given _)), Hgh|].
  split; [rewrite length_app; lia|].
  split; [rewrite <-app_assoc, Hc, Hgh, length_app; lia|].
  exact Hnone.
Qed.

(** The message ends at the terminator, however the stream is handed out:
    what is delivered is a prefix of [pre], and all of it once the reader
    is in state 3; an error is returned only in state 3, as 0 and
    [io.EOF]; with every read of the stream making progress, a run of more
    than [3 * length input] calls gets there. *)
Lemma stopping_run sched (bufs : list (list byte)) os out d :
  Forall (λ b, 4 ≤ length b) bufs →
  run (newDotStop (input, sched)) bufs = (os, out, d) →
  out `prefix_of` pre
  ∧ Forall returned os
  ∧ (state d = 3 → out = pre)
  ∧ (∀ n e, latest None os = Some (Returned n (Some e)) →
       state d = 3 ∧ n = 0 ∧ e = EOF)
  ∧ (Forall (λ k, 1 ≤ k) sched → 3 * length input < length bufs →
       state d = 3 ∧ last os = Some (Returned 0 (Some EOF))).
Proof.
  intros Hbufs Hrun.
  destruct (run_invariant (stopping pre input) stopping_step
              bufs [] None _ os out d Hbufs (stopping_new sched) Hrun)
    as (_ & Hret & Hinv).
  change ([] ++ out) with out in Hinv.
  assert (state d ≤ 2 → (r d).1 ≠ []) as Hmore.
  { intros Hst Hnil.
    destruct Hinv as [(Hdone & _)|(_ & Hall & _ & Hread & _)]; [lia|].
    rewrite Hnil, app_nil_r in Hall.
    rewrite Hall in Hread. unfold input in Hread.
    rewrite length_app in Hread. simpl in Hread. lia. }
  split; [|split; [done|]; split; [|split]].
  - destruct Hinv as [(_ & -> & _)|(_ & Hall & Hout & _)]; [done|].
    destruct (split_at pre out _ _ Hall Hout) as (mid & Hmid & _).
    rewrite Hmid. by apply prefix_app_r.
  - intros Hdone. destruct Hinv as [(_ & -> & _)|(Hst & _)]; [done|lia].
  - intros n e Heq. destruct Hinv as [(Hdone & _ & Herr)|(_ & _ & _ & _ & Hno)].
    + split; [done|]. by apply Herr.
    + by apply Hno in Heq.
  - intros Hsched Hfuel.
    destruct (run_reaches_eof bufs (newDotStop (input, sched)) os out d)
      as [Hlast Heof]; simpl; try done; try lia.
    split; [|done].
    destruct Heof as [Hdone|(Hst & Hnil & _)]; [done|].
    by apply Hmore in Hnil.
Qed.

End Stops.

(** ** The fields of a header *)

Section HeaderBlock.
Implicit Types (h : Header) (k v : string).

Lemma elem_of_sorted_keys h k : k ∈ sorted_keys h ↔ is_Some (h !! k).
Proof.
  unfold sorted_keys. rewrite merge_sort_Permutation, list_elem_of_fmap.
  split.
  - intros ([k' vs] & -> & Hin). apply elem_of_map_to_list in Hin. by exists vs.
  - intros [vs Hvs]. exists (k, vs). split; [done|].
    by apply elem_of_map_to_list.
Qed.

(** The fields written are the values of the keys of the map. *)
Lemma elem_of_fields h k v :
  (k, v) ∈ fields h ↔ ∃ vs, h !! k = Some vs ∧ v ∈ vs.
Proof.
  unfold fields. rewrite list_elem_of_bind. split.
  - intros (k' & Hin & Hk'). apply list_elem_of_fmap in Hin as (v' & Heq & Hv').
    simplify_eq. apply elem_of_sorted_keys in Hk' as [vs Hvs].
    exists vs. split; [done|]. unfold values in Hv'. by rewrite Hvs in Hv'.
  - intros (vs & Hvs & Hv). exists k. split.
    + apply list_elem_of_fmap. exists v. split; [done|].
      unfold values. by rewrite Hvs.
    + apply elem_of_sorted_keys. by exists vs.
Qed.

Lemma bind_Go {A B : Type} (x : step A) (f : A → step B) b :
  bind x f = Go b → ∃ a, x = Go a ∧ f a = Go b.
Proof. destruct x as [a|msg]; simpl; [|done]. intros Hf. by exists a. Qed.

End HeaderBlock.

(** * The claims *)

(** ** The transition table *)

(** C3 (the code differs): the claim has state 1 go back to 0 on a byte
    that is neither a line break nor a dot, and state 2 go back to 0 on a
    second dot.  The [switch] of the code has no case that goes back: the
    state never decreases; in state 1 every byte but a dot keeps state 1,
    in state 2 every byte but a line break keeps state 2, a second dot
    among them. *)
Theorem C3_switch_never_goes_back :
  (∀ st c, st ≤ (switch st c).1)
  ∧ (∀ c, is_dot c = false → switch 1 c = (1, false))
  ∧ (∀ c, is_break c = false → switch 2 c = (2, false))
  ∧ switch 1 "a"%byte = (1, false)
  ∧ switch 2 DOT = (2, false).
Proof.
  split; [apply switch_ge|].
  split; [intros c Hc; simpl; by rewrite Hc|].
  split; [intros c Hc; simpl; by rewrite Hc|].
  done.
Qed.

(** C4 (the code differs): read in one piece, ["a\r\n..\r\nb"] ends
    the message at the line of two dots: three bytes are delivered, the
    reader is in state 3 and the next call returns [io.EOF]. *)
Theorem C4_two_dots_stop :
  run (newDotStop (two_dots, [])) (buffers 16 2)
  = ([Returned 3 None; Returned 0 (Some EOF)],
     of_string "a" ++ [CR; LF],
     mkDotStop ([], []) 3 (DOT, DOT, CR)).
Proof. vm_compute. reflexivity. Qed.

(** C1 (the code differs): the input [dot_a] holds one terminator, at its
    end.  Read in one piece the message ends after its first byte; read
    byte by byte the whole of it before the terminator is delivered. *)
Theorem C1_output_depends_on_pieces :
  (∀ u b1 b2 x, dot_a = u ++ b1 :: DOT :: b2 :: x →
     is_break b1 = true → is_break b2 = true →
     u = [LF; DOT] ++ of_string "a" ∧ x = [])
  ∧ dot_a = ([LF; DOT] ++ of_string "a") ++ [LF; DOT; LF]
  ∧ (run (newDotStop (dot_a, [])) (buffers 8 2)).1.2 = [LF]
  ∧ (run (newDotStop (dot_a, replicate 6 1)) (buffers 8 8)).1.2
    = [LF; DOT] ++ of_string "a"
  ∧ state (run (newDotStop (dot_a, [])) (buffers 8 2)).2 = 3
  ∧ state (run (newDotStop (dot_a, replicate 6 1)) (buffers 8 8)).2 = 3.
Proof.
  split; [|by vm_compute].
  intros u b1 b2 x Heq Hb1 Hb2. vm_compute in Heq.
  destruct u as [|? [|? [|? [|? [|? [|? [|? u]]]]]]]; simplify_eq; done.
Qed.

(** ** After the terminator *)

(** C7: once the reader is in state 3, every call into a buffer of at
    least four bytes returns 0 and [io.EOF] and leaves the reader, the
    underlying reader in it and the buffer as they were, whatever the
    underlying reader still holds: nothing more is delivered. *)
Theorem C7_done_is_final {S : Type} `{Reader S}
    (d : dotStopReader S) (bufs : list (list byte)) :
  state d = 3 → Forall (λ b, 4 ≤ length b) bufs →
  run d bufs = (replicate (length bufs) (Returned 0 (Some EOF)), [], d)
  ∧ ∀ b, 4 ≤ length b → Read d b = (Returned 0 (Some EOF), d, b).
Proof.
  intros Hdone Hbufs. split; [by apply run_done|].
  intros b Hb. by apply Read_done.
Qed.

Lemma C7_done_is_final_witness :
  let d := mkDotStop (of_string "world", [1]) 3 (LF, DOT, CR) in
  state d = 3 ∧ Forall (λ b, 4 ≤ length b) (buffers 4 2)
  ∧ run d (buffers 4 2) = ([Returned 0 (Some EOF); Returned 0 (Some EOF)], [], d).
Proof.
  simpl. split; [reflexivity|].
  assert (Forall (λ b : list byte, 4 ≤ length b) (buffers 4 2)) as Hbufs
    by (repeat constructor).
  split; [exact Hbufs|].
  exact (proj1 (C7_done_is_final
    (mkDotStop (of_string "world", [1]) 3 (LF, DOT, CR)) (buffers 4 2)
    eq_refl Hbufs)).
Defined.

(** ** The size of the buffer *)

(** C8: with a buffer of fewer than four bytes [Read] panics with its
    message, and the reader, the underlying reader in it and the buffer
    are as they were.  With at least four bytes, and the state one of 0
    to 3 (as it is at the start and stays), [Read] returns, whatever the
    underlying reader does, and so does every call of a run. *)
Theorem C8_panics_iff_small {S : Type} `{Reader S}
    (d : dotStopReader S) (b : list byte) :
  (length b < 4 → Read d b = (Panicked too_small, d, b))
  ∧ (4 ≤ length b → state d ≤ 3 →
     ∃ n e d' b', Read d b = (Returned n e, d', b') ∧ state d' ≤ 3)
  ∧ (∀ bufs os out d', Forall (λ b, 4 ≤ length b) bufs → state d ≤ 3 →
     run d bufs = (os, out, d') →
     length os = length bufs ∧ Forall returned os ∧ state d' ≤ 3).
Proof.
  assert (∀ (d : dotStopReader S) b, 4 ≤ length b → state d ≤ 3 →
    ∃ n e d' b', Read d b = (Returned n e, d', b') ∧ state d' ≤ 3) as Hstep.
  { clear d b. intros d b Hlen Hst.
    destruct (decide (state d = 3)) as [Hdone|Hnot].
    { exists 0, (Some EOF), d, b. by rewrite Read_done. }
    destruct (io_read (r d) (length b - state d)) as [[data err] src] eqn:Hio.
    destruct (Read_scan d b data err src Hlen ltac:(lia) Hio)
      as (d' & b' & HR & _ & Hs & _).
    eexists _, _, d', b'. split; [exact HR|]. rewrite Hs. apply kept_le3. }
  split; [apply Read_too_small|]. split; [apply Hstep|].
  intros bufs os out d' Hbufs Hst Hrun.
  apply (run_invariant (λ _ _ d, state d ≤ 3)) with (out := []) (o := None)
    in Hrun; [done| |done..].
  intros out0 o0 d0 b0 Hst0 Hb0. by apply Hstep.
Qed.

Lemma C8_panics_iff_small_witness :
  Read (newDotStop (hello, [])) (replicate 3 x00)
  = (Panicked too_small, newDotStop (hello, []), replicate 3 x00)
  ∧ ∃ n e d' b',
      Read (newDotStop (hello, [])) (replicate 4 x00) = (Returned n e, d', b')
      ∧ state d' ≤ 3.
Proof.
  split.
  - apply (proj1 (C8_panics_iff_small (newDotStop (hello, [])) (replicate 3 x00))).
    simpl. lia.
  - apply (proj1 (proj2 (C8_panics_iff_small (newDotStop (hello, [])) (replicate 4 x00)))).
    + simpl. lia.
    + simpl. lia.
Defined.

(** ** Between calls *)

(** C6: after any run of calls, each into a buffer of at least four bytes,
    what was delivered is a prefix of the input; below state 3 the bytes
    delivered, the bytes held in [extra] and the bytes still to be read
    are the input, in this order; and the next call scans the held bytes
    followed by the bytes it reads, delivers a prefix of them and holds
    back the rest. *)
Theorem C6_output_is_prefix (input : list byte) (sched : list nat)
    (bufs : list (list byte)) (os : list outcome) (out : list byte)
    (d : dotStopReader ChunkSource) :
  Forall (λ b, 4 ≤ length b) bufs →
  run (newDotStop (input, sched)) bufs = (os, out, d) →
  out `prefix_of` input
  ∧ (state d < 3 → out ++ carry d ++ (r d).1 = input)
  ∧ (∀ b, 4 ≤ length b → state d < 3 →
     ∃ data err d' b',
       Read d b = (Returned (length (given (carry d ++ data)))
                     (if 0 <? length (given (carry d ++ data)) then None else err),
                   d', b')
       ∧ take (length (given (carry d ++ data))) b' = given (carry d ++ data)
       ∧ given (carry d ++ data) `prefix_of` carry d ++ data
       ∧ state d' = kept (carry d ++ data)
       ∧ carry d' = held (carry d ++ data)
       ∧ (kept (carry d ++ data) < 3 →
          given (carry d ++ data) ++ held (carry d ++ data) = carry d ++ data)
       ∧ data ++ (r d').1 = (r d).1).
Proof.
  intros Hbufs Hrun.
  destruct (run_invariant (conserved input) (conserved_step input)
              bufs [] None _ os out d Hbufs (conserved_new input sched) Hrun)
    as (_ & _ & Hst & Hpre & Hall).
  split; [done|]. split; [done|].
  intros b Hb Hlt.
  destruct (Read_chunk d b Hb ltac:(lia))
    as (data & err & d' & b' & HR & Hs & Hc & Ht & Hdata & _).
  exists data, err, d', b'. repeat split; try done.
  - apply given_prefix.
  - intros Hk. by apply given_held.
Qed.

Lemma C6_output_is_prefix_witness :
  (run (newDotStop (hello, [7])) (buffers 8 1)).1.2 `prefix_of` hello.
Proof.
  destruct (run (newDotStop (hello, [7])) (buffers 8 1)) as [[os out] d] eqn:Hrun.
  assert (Forall (λ b : list byte, 4 ≤ length b) (buffers 8 1)) as Hbufs
    by (repeat constructor).
  exact (proj1 (C6_output_is_prefix hello [7] (buffers 8 1) os out d Hbufs Hrun)).
Defined.

(** ** Input without a terminator *)

(** C2 as the specification words it fails: [hi_lf] holds no terminator,
    and a run over it that has come to [io.EOF] has delivered "hi"
    only. *)
Lemma C2_passthrough_counterexample : ¬ passthrough_as_claimed.
Proof.
  intros Hclaim.
  assert (¬ has_terminator hi_lf) as Hno.
  { intros (u & b1 & b2 & x & Heq & _).
    destruct u as [|? [|? [|? [|? u]]]]; discriminate Heq. }
  assert (Forall (λ b : list byte, 4 ≤ length b) (buffers 4 3)) as Hbufs
    by (repeat constructor).
  specialize (Hclaim hi_lf [] (buffers 4 3) _ _ _ Hno Hbufs eq_refl eq_refl).
  discriminate Hclaim.
Qed.

(** The other way C2 fails, which comes from the [switch] that never goes
    back (C3): [a_dot_b] holds no terminator either, and read in one piece
    it ends the message after two bytes. *)
Lemma a_dot_b_stops :
  ¬ has_terminator a_dot_b
  ∧ run (newDotStop (a_dot_b, [])) (buffers 8 2)
    = ([Returned 2 None; Returned 0 (Some EOF)], [LF; "a"%byte],
       mkDotStop ([], []) 3 (DOT, "b"%byte, LF)).
Proof.
  split; [|by vm_compute].
  intros (u & b1 & b2 & x & Heq & Hb1 & Hb2).
  vm_compute in Heq.
  destruct u as [|? [|? [|? [|? [|? [|? u]]]]]]; simplify_eq.
Qed.

(** C2 as amended: on input in which no line break is followed, at any
    distance, by a dot that is followed, at any distance, by a line break,
    every call returns; what is delivered is a prefix of [body input], the
    input without a line break, or a line break and a dot, at its very
    end; a call returns an error only when the stream is exhausted, the
    error is [io.EOF], and then all of [body input] has been delivered;
    and when every read of the stream makes progress, a run of more than
    [3 * length input] calls gets there. *)
Theorem C2_passthrough_amended (input : list byte) (sched : list nat)
    (bufs : list (list byte)) (os : list outcome) (out : list byte)
    (d : dotStopReader ChunkSource) :
  ¬ scattered input →
  Forall (λ b, 4 ≤ length b) bufs →
  run (newDotStop (input, sched)) bufs = (os, out, d) →
  out `prefix_of` body input
  ∧ Forall returned os
  ∧ (∀ n e, latest None os = Some (Returned n (Some e)) →
       e = EOF ∧ n = 0 ∧ (r d).1 = [] ∧ out = body input)
  ∧ (Forall (λ k, 1 ≤ k) sched → 3 * length input < length bufs →
       last os = Some (Returned 0 (Some EOF)) ∧ out = body input).
Proof.
  intros Hno Hbufs Hrun.
  pose proof (not_scattered_sticky _ Hno) as Hclean.
  destruct (run_invariant (passing input) (passing_step input Hclean)
              bufs [] None _ os out d Hbufs (passing_new input sched) Hrun)
    as (_ & Hret & Hinv).
  simpl in Hinv. pose proof Hinv as (_ & _ & _ & _ & Herr).
  split; [by eapply passing_prefix|]. split; [done|]. split; [done|].
  intros Hsched Hfuel.
  destruct (run_reaches_eof bufs (newDotStop (input, sched)) os out d)
    as [Hlast _]; simpl; try done; try lia.
  split; [done|].
  apply (Herr 0 EOF). unfold latest. by rewrite Hlast.
Qed.

Lemma C2_passthrough_amended_witness :
  (run (newDotStop (hi_lf, [])) (buffers 4 3)).1.2 `prefix_of` body hi_lf.
Proof.
  destruct (run (newDotStop (hi_lf, [])) (buffers 4 3)) as [[os out] d] eqn:Hrun.
  assert (Forall (λ b : list byte, 4 ≤ length b) (buffers 4 3)) as Hbufs
    by (repeat constructor).
  assert (¬ scattered hi_lf) as Hno.
  { intros Hs. apply scattered_sticky in Hs. vm_compute in Hs. lia. }
  exact (proj1 (C2_passthrough_amended hi_lf [] (buffers 4 3) os out d
                  Hno Hbufs Hrun)).
Defined.

(** ** The terminator *)

(** C5: over ["Hello\\r\\n.\\r\\nworld"], however the stream is handed
    out and whatever the buffers of at least four bytes, every call
    returns; what is delivered is a prefix of ["Hello\\r"], and all of it
    once the reader is in state 3; a call returns an error only in state
    3, as 0 and [io.EOF]; when every read of the stream makes progress a
    run of more than 45 calls gets there; and from state 3 on every call
    returns 0 and [io.EOF]: nothing of "world" is delivered. *)
Theorem C5_hello_stops (sched : list nat) (bufs : list (list byte))
    (os : list outcome) (out : list byte) (d : dotStopReader ChunkSource) :
  Forall (λ b, 4 ≤ length b) bufs →
  run (newDotStop (hello, sched)) bufs = (os, out, d) →
  out `prefix_of` of_string "Hello" ++ [CR]
  ∧ Forall returned os
  ∧ (state d = 3 → out = of_string "Hello" ++ [CR])
  ∧ (∀ n e, latest None os = Some (Returned n (Some e)) →
       state d = 3 ∧ n = 0 ∧ e = EOF)
  ∧ (Forall (λ k, 1 ≤ k) sched → 45 < length bufs →
       state d = 3 ∧ last os = Some (Returned 0 (Some EOF)))
  ∧ (state d = 3 → ∀ bufs', Forall (λ b, 4 ≤ length b) bufs' →
       run d bufs'
       = (replicate (length bufs') (Returned 0 (Some EOF)), [], d)).
Proof.
  intros Hbufs Hrun.
  assert (sticky 0 (of_string "Hello" ++ [CR]) ≤ 1) as Hpre
    by (vm_compute; lia).
  destruct (stopping_run (of_string "Hello" ++ [CR]) (LF :: of_string "world")
              LF CR eq_refl eq_refl Hpre sched bufs os out d Hbufs Hrun)
    as (Hprefix & Hret & Hdone & Herr & Hprog).
  repeat (split; [done|]).
  intros Hd bufs' Hbufs'. by apply run_done.
Qed.

Lemma C5_hello_stops_witness :
  (run (newDotStop (hello, [2; 5; 1])) (buffers 4 5)).1.2
    `prefix_of` of_string "Hello" ++ [CR].
Proof.
  destruct (run (newDotStop (hello, [2; 5; 1])) (buffers 4 5))
    as [[os out] d] eqn:Hrun.
  assert (Forall (λ b : list byte, 4 ≤ length b) (buffers 4 5)) as Hbufs
    by (repeat constructor).
  exact (proj1 (C5_hello_stops [2; 5; 1] (buffers 4 5) os out d Hbufs Hrun)).
Defined.

(** ** The end of the stream in the middle of a pattern *)

(** C10: when the underlying reader returns no bytes and [io.EOF] while
    [extra] holds a line break (state 1), or a line break and a dot
    (state 2), [Read] returns 0 and [io.EOF] and the reader keeps its state
    and the held bytes: they are never delivered.  So over ["hi\\n"],
    however it is handed out, no more than "hi" is delivered, an error is
    returned only as 0 and [io.EOF] with exactly "hi" delivered, and a run
    of more than 9 calls gets there when every read makes progress. *)
Theorem C10_held_bytes_dropped_at_eof :
  (∀ (S : Type) (HR : Reader S) (d : dotStopReader S) (b : list byte)
     (c : byte) (src : S),
     4 ≤ length b → is_break c = true →
     (state d = 1 ∧ carry d = [c]) ∨ (state d = 2 ∧ carry d = [c; DOT]) →
     io_read (r d) (length b - state d) = ([], Some EOF, src) →
     ∃ d' b', Read d b = (Returned 0 (Some EOF), d', b')
              ∧ state d' = state d ∧ carry d' = carry d ∧ r d' = src)
  ∧ (∀ (sched : list nat) (bufs : list (list byte)) (os : list outcome)
       (out : list byte) (d : dotStopReader ChunkSource),
     Forall (λ b, 4 ≤ length b) bufs →
     run (newDotStop (hi_lf, sched)) bufs = (os, out, d) →
     out `prefix_of` of_string "hi"
     ∧ (∀ n e, latest None os = Some (Returned n (Some e)) →
          e = EOF ∧ n = 0 ∧ out = of_string "hi")
     ∧ (Forall (λ k, 1 ≤ k) sched → 9 < length bufs →
          last os = Some (Returned 0 (Some EOF)) ∧ out = of_string "hi")).
Proof.
  split.
  - intros S HR d b c src Hlen Hc Hcarry Hio.
    assert (state d ≤ 2) as Hst by (destruct Hcarry as [[? _]|[? _]]; lia).
    destruct (Read_scan d b [] (Some EOF) src Hlen Hst Hio)
      as (d' & b' & HRd & Hr & Hs & Hca & _).
    rewrite app_nil_r in *.
    assert (given (carry d) = [] ∧ kept (carry d) = state d
            ∧ held (carry d) = carry d) as (Hg & Hk & Hh).
    { destruct Hcarry as [[-> ->]|[-> ->]];
        unfold held, given; unfold kept, scan; simpl; rewrite Hc; done. }
    rewrite Hg in HRd. simpl in HRd.
    exists d', b'. repeat split; congruence.
  - intros sched bufs os out d Hbufs Hrun.
    assert (sticky 0 hi_lf ≤ 2) as Hclean by (vm_compute; lia).
    destruct (run_invariant (passing hi_lf) (passing_step hi_lf Hclean)
                bufs [] None _ os out d Hbufs (passing_new hi_lf sched) Hrun)
      as (_ & Hret & Hinv).
    change ([] ++ out) with out in Hinv.
    pose proof Hinv as (_ & _ & _ & _ & Herr).
    assert (body hi_lf = of_string "hi") as Hbody by done.
    split; [rewrite <-Hbody; by eapply passing_prefix|].
    split.
    + intros n e Heq. destruct (Herr n e Heq) as (-> & -> & _ & ->). done.
    + intros Hsched Hfuel.
      destruct (run_reaches_eof bufs (newDotStop (hi_lf, sched)) os out d)
        as [Hlast _]; simpl; try done; try lia.
      split; [done|].
      destruct (Herr 0 EOF) as (_ & _ & _ & ->); [|done].
      unfold latest. by rewrite Hlast.
Qed.

Lemma C10_held_bytes_dropped_at_eof_witness :
  ∃ d' b',
    Read (mkDotStop (([], []) : ChunkSource) 1 (LF, x00, x00)) (replicate 4 x00)
    = (Returned 0 (Some EOF), d', b')
    ∧ state d' = 1 ∧ carry d' = [LF].
Proof.
  destruct (proj1 C10_held_bytes_dropped_at_eof ChunkSource ChunkReader
              (mkDotStop (([], []) : ChunkSource) 1 (LF, x00, x00))
              (replicate 4 x00) LF ([], []))
    as (d' & b' & HR & Hs & Hc & _).
  - simpl. lia.
  - reflexivity.
  - left. split; reflexivity.
  - reflexivity.
  - exists d', b'. split; [exact HR|]. split; [exact Hs|exact Hc].
Defined.

(** ** The header block *)

(** Whenever [main] gets to [mg.MailMIME], with [-t] or without, the
    header block it hands over is the fields of the header map, with
    [From] filled in when it was missing and the key [Bcc] deleted,
    written one per line: no field written has the key [Bcc] itself,
    every field of another key is written, and the values under the key
    [Bcc] are used only with [-t], where their addresses end the list of
    recipients; without [-t] the recipients are those of the command
    line. *)
Lemma main_deletes_key_Bcc
    (to_Set : list Address → string → parsed (list Address))
    (AddressList : Header → string → parsed (list Address))
    (AddressString : Address → string) (USER : string) (IsTTY : bool)
    (f : Flags) (msg : parsed Header) (m : Mail) :
  main to_Set AddressList AddressString USER IsTTY f msg = Go m →
  ∃ h : Header,
    msg = Ok h
    ∧ mail_hdr m
      = write_fields (fields (final_header AddressString (mail_from m) h))
    ∧ (∀ k v, (k, v) ∈ fields (final_header AddressString (mail_from m) h) →
         k ≠ "Bcc")
    ∧ (∀ k v, k ≠ "Bcc" → k ≠ "From" →
         ((k, v) ∈ fields (final_header AddressString (mail_from m) h)
          ↔ v ∈ values h k))
    ∧ (tflag f = true → values h "Bcc" ≠ [] →
         ∃ addrs, AddressList h "Bcc" = Ok addrs ∧ addrs `suffix_of` mail_to m)
    ∧ (tflag f = false → set_args to_Set [] (args f) = Go (mail_to m)).
Proof.
  unfold main. intros Hmain.
  apply bind_Go in Hmain as ([] & _ & Hmain).
  destruct (decide (bflag f ≠ "m")); [done|].
  destruct (_ && _); [done|].
  apply bind_Go in Hmain as (to & Hto & Hmain).
  apply bind_Go in Hmain as (from & Hfrom & Hmain).
  destruct msg as [h|err]; [|done].
  apply bind_Go in Hmain as (to' & Hrcpt & Hmain).
  injection Hmain as <-. simpl.
  exists h. split; [done|]. split; [done|].
  assert (final_header AddressString from h !! "Bcc" = None) as Hbcc
    by apply lookup_delete_eq.
  split; [|split; [|split]].
  - intros k v Hin ->. apply elem_of_fields in Hin as (vs & Hvs & _). congruence.
  - intros k v Hk1 Hk2. rewrite elem_of_fields.
    unfold final_header. rewrite lookup_delete_ne by done.
    assert ((if length (values h "From") =? 0
             then <["From":=[AddressString from]]> h else h) !! k = h !! k) as ->.
    { destruct (_ =? _); [|done]. by rewrite lookup_insert_ne. }
    unfold values. split.
    + intros (vs & -> & Hv). done.
    + destruct (h !! k) as [vs|]; simpl; [|by intros ?%elem_of_nil].
      intros Hv. by exists vs.
  - intros Ht Hne. unfold recipients in Hrcpt. rewrite Ht in Hrcpt.
    apply bind_Go in Hrcpt as (to1 & Hhdr & Hrcpt).
    destruct (length to1 =? 0); [done|]. injection Hrcpt as <-.
    assert ((length (values h "Bcc") =? 0) = false) as Hlen.
    { apply Nat.eqb_neq. destruct (values h "Bcc"); [done|simpl; lia]. }
    simpl in Hhdr. rewrite Hlen in Hhdr.
    destruct (AddressList h "Bcc") as [addrs|err] eqn:Hal.
    + exists addrs. split; [done|].
      repeat (case_match; simplify_eq); by apply suffix_app_r.
    + repeat (case_match; simplify_eq).
  - intros Ht. unfold recipients in Hrcpt. rewrite Ht in Hrcpt. congruence.
Qed.

Lemma main_deletes_key_Bcc_example :
  demo_main = Go demo_mail
  ∧ ∃ h : Header,
      Ok demo_header = Ok h
      ∧ ∀ k v, (k, v) ∈ fields (final_header Addr (mail_from demo_mail) h) →
          k ≠ "Bcc".
Proof.
  assert (demo_main = Go demo_mail) as Hmain by (vm_compute; reflexivity).
  split; [exact Hmain|].
  destruct (main_deletes_key_Bcc
              (λ to arg, Ok (to ++ [mkAddress EmptyString arg]))
              (λ h key, Ok [mkAddress EmptyString (hd EmptyString (values h key))])
              Addr "root" true demo_flags (Ok demo_header) demo_mail Hmain)
    as (h & Hh & _ & Hno & _).
  exists h. split; [exact Hh|exact Hno].
Defined.

(** C9 (the code differs): [delete(msg.Header, "Bcc")] takes away the key
    [Bcc] and no other.  A [Bcc] line with a space before its colon is in
    the header map under the name with the space, so it stays: with [-t]
    and without, the header block handed to the gateway has the line
    [Bcc : s@x.com], and with [-t] that address is not among the
    recipients. *)
Theorem C9_spaced_Bcc_is_handed_on :
  ∃ mt ma,
    spaced_main_t = Go mt ∧ spaced_main_args = Go ma
    ∧ split_nl (mail_hdr mt)
      = ["Bcc : s@x.com"; "From: root"; "To: a@example.com";
         EmptyString; EmptyString]
    ∧ split_nl (mail_hdr ma)
      = ["Bcc : s@x.com"; "From: root"; "To: a@example.com";
         EmptyString; EmptyString]
    ∧ mail_to mt = [mkAddress EmptyString "a@example.com"]
    ∧ mail_to ma = [mkAddress EmptyString "a@example.com"].
Proof.
  eexists _, _. split; [vm_compute; reflexivity|].
  split; [vm_compute; reflexivity|].
  by vm_compute.
Qed.

(** * More of the program *)

(** ** The order of the header block *)

Lemma string_compare_trans (a : string) : ∀ b c,
  String.compare a b ≠ Gt → String.compare b c ≠ Gt → String.compare a c ≠ Gt.
Proof.
  induction a as [|x a IH]; intros [|y b] [|z c]; simpl; try done.
  unfold Ascii.compare.
  destruct (N.compare_spec (Ascii.N_of_ascii x) (Ascii.N_of_ascii y)) as [Hxy|Hxy|Hxy];
    destruct (N.compare_spec (Ascii.N_of_ascii y) (Ascii.N_of_ascii z)) as [Hyz|Hyz|Hyz];
    destruct (N.compare_spec (Ascii.N_of_ascii x) (Ascii.N_of_ascii z)) as [Hxz|Hxz|Hxz];
    try done; try lia.
  apply IH.
Qed.

Lemma str_le_compare a b : str_le a b ↔ String.compare a b ≠ Gt.
Proof. unfold str_le, String.leb. by destruct (String.compare a b). Qed.

#[export] Instance str_le_trans : Transitive str_le.
Proof.
  intros a b c. rewrite !str_le_compare. apply string_compare_trans.
Qed.

#[export] Instance str_le_total : Total str_le.
Proof. intros a b. apply String.leb_total. Qed.

Lemma str_le_antisym a b : str_le a b → str_le b a → a = b.
Proof. apply String.leb_antisym. Qed.

Lemma NoDup_sorted_keys (h : Header) : NoDup (sorted_keys h).
Proof.
  unfold sorted_keys. rewrite merge_sort_Permutation.
  apply NoDup_fst_map_to_list.
Qed.

(** X1: the keys are written in ascending order of their bytes, each key
    of the map once: of two keys the one written first is below the other
    and differs from it, whatever order the loop over the map gave. *)
Theorem X1_keys_ascending (h : Header) :
  (∀ k, k ∈ sorted_keys h ↔ is_Some (h !! k))
  ∧ NoDup (sorted_keys h)
  ∧ ∀ i j ki kj, i < j →
      sorted_keys h !! i = Some ki → sorted_keys h !! j = Some kj →
      str_le ki kj ∧ ki ≠ kj.
Proof.
  split; [apply elem_of_sorted_keys|]. split; [apply NoDup_sorted_keys|].
  intros i j ki kj Hij Hi Hj.
  assert (StronglySorted str_le (sorted_keys h)) as Hsorted.
  { apply StronglySorted_merge_sort; apply _. }
  split.
  - rewrite <-(take_drop (S i) (sorted_keys h)) in Hsorted.
    eapply StronglySorted_app_1_elem_of; [exact Hsorted| |].
    + apply list_elem_of_lookup. exists i. rewrite lookup_take_lt by lia. done.
    + apply list_elem_of_lookup. exists (j - S i). rewrite lookup_drop.
      replace (S i + (j - S i)) with j by lia. done.
  - intros ->. pose proof (NoDup_sorted_keys h) as Hnd.
    pose proof (NoDup_lookup _ _ _ _ Hnd Hi Hj). lia.
Qed.

Lemma fields_of_key (h : Header) (k : string) :
  filter (λ kv, kv.1 = k) (fields h) = (λ v, (k, v)) <$> values h k.
Proof.
  unfold fields.
  assert (∀ ks : list string, NoDup ks →
    filter (λ kv : string * string, kv.1 = k)
      (ks ≫= λ k', (λ v, (k', v)) <$> values h k')
    = if decide (k ∈ ks) then (λ v, (k, v)) <$> values h k else []) as Hgen.
  { induction ks as [|k' ks IH]; intros Hnd; [done|].
    apply NoDup_cons in Hnd as [Hk' Hnd].
    rewrite bind_cons, filter_app, IH by done.
    destruct (decide (k' = k)) as [->|Hne].
    - destruct (decide (k ∈ ks)) as [|_]; [done|].
      destruct (decide (k ∈ k :: ks)) as [_|Hn]; [|by destruct Hn; left].
      rewrite app_nil_r.
      induction (values h k) as [|v vs IHv]; [done|].
      simpl. rewrite filter_cons_True by done. by f_equal.
    - assert (filter (λ kv : string * string, kv.1 = k)
                ((λ v, (k', v)) <$> values h k') = []) as ->.
      { induction (values h k') as [|v vs IHv]; [done|].
        simpl. by rewrite filter_cons_False. }
      simpl. destruct (decide (k ∈ ks)) as [Hin|Hnin];
        destruct (decide (k ∈ k' :: ks)) as [Hin'|Hnin']; try done.
      + destruct Hnin'. by right.
      + apply elem_of_cons in Hin' as [?|?]; by subst. }
  rewrite Hgen by apply NoDup_sorted_keys.
  destruct (decide (k ∈ sorted_keys h)) as [|Hnot]; [done|].
  rewrite elem_of_sorted_keys in Hnot.
  unfold values. destruct (h !! k); [|done]. by destruct Hnot.
Qed.

(** X2: the values of a key are written in their order, one after the
    other and nothing else under that key: the fields of name [k] among
    those written are the values of [k], as they stand in the map. *)
Theorem X2_values_in_order (h : Header) (k : string) :
  filter (λ kv, kv.1 = k) (fields h) = (λ v, (k, v)) <$> values h k.
Proof. apply fields_of_key. Qed.

Lemma values_final_header (AddressString : Address → string)
    (from : Address) (h : Header) (k : string) :
  values (final_header AddressString from h) k
  = if decide (k = "Bcc") then []
    else if decide (k = "From" ∧ values h "From" = [])
         then [AddressString from]
         else values h k.
Proof.
  unfold final_header, values at 1.
  destruct (decide (k = "Bcc")) as [->|Hbcc].
  { by rewrite lookup_delete_eq. }
  rewrite lookup_delete_ne by done.
  destruct (length (values h "From") =? 0) eqn:Hlen.
  - apply Nat.eqb_eq, nil_length_inv in Hlen.
    destruct (decide (k = "From" ∧ values h "From" = [])) as [[-> _]|Hne].
    + by rewrite lookup_insert_eq.
    + rewrite lookup_insert_ne; [done|]. intros <-. by destruct Hne.
  - apply Nat.eqb_neq in Hlen.
    destruct (decide (k = "From" ∧ values h "From" = [])) as [[_ Hnil]|_]; [|done].
    rewrite Hnil in Hlen. done.
Qed.

(** X3: of the header handed on, the fields of name [Bcc] are none; the
    fields of name [From] are those of the message, in their order, or,
    when it has none, the one made of the sender; the fields of any other
    name are those of the message, in their order. *)
Theorem X3_fields_handed_on (AddressString : Address → string)
    (from : Address) (h : Header) (k : string) :
  filter (λ kv, kv.1 = k) (fields (final_header AddressString from h))
  = (λ v, (k, v)) <$>
      (if decide (k = "Bcc") then []
       else if decide (k = "From" ∧ values h "From" = [])
            then [AddressString from]
            else values h k).
Proof. by rewrite fields_of_key, values_final_header. Qed.

(** ** The recipients and the sender *)

Section Envelope.
Variable to_Set : list Address → string → parsed (list Address).
Variable AddressList : Header → string → parsed (list Address).
Variable AddressString : Address → string.
Variable USER : string.
Variable IsTTY : bool.

Lemma header_recipients_cons (h : Header) to key rest to' :
  header_recipients AddressList h to (key :: rest) = Go to' →
  ∃ addrs, listed AddressList h key addrs
           ∧ header_recipients AddressList h (to ++ addrs) rest = Go to'.
Proof.
  simpl. destruct (length (values h key) =? 0) eqn:Hlen.
  - apply Nat.eqb_eq, nil_length_inv in Hlen. intros Hrest.
    exists []. rewrite app_nil_r. split; [by left|done].
  - apply Nat.eqb_neq in Hlen.
    destruct (AddressList h key) as [addrs|err] eqn:Hal; [|done].
    intros Hrest. exists addrs. split; [|done]. right. split; [|done].
    intros Hnil. by rewrite Hnil in Hlen.
Qed.

Lemma debug_values_Go vs :
  debug_values vs = Go () → Forall (λ v, v = "http" ∨ v = "nosend") vs.
Proof.
  induction vs as [|v vs IH]; simpl; [by constructor|].
  destruct (decide (v = "http")) as [->|_].
  { intros Hvs. constructor; [by left|by apply IH]. }
  destruct (decide (v = "nosend")) as [->|_]; [|done].
  intros Hvs. constructor; [by right|by apply IH].
Qed.

(** What [main] has passed when it gets to [mg.MailMIME]. *)
Lemma main_Go f msg m :
  main to_Set AddressList AddressString USER IsTTY f msg = Go m →
  ∃ h to0,
    msg = Ok h
    ∧ debug_values (dflag f) = Go ()
    ∧ bflag f = "m"
    ∧ (length (args f) =? 0) && negb (tflag f) = false
    ∧ set_args to_Set [] (args f) = Go to0
    ∧ from_address USER f = Go (mail_from m)
    ∧ recipients AddressList f h to0 = Go (mail_to m)
    ∧ mail_hdr m = write_fields (fields (final_header AddressString (mail_from m) h))
    ∧ mail_dot_stop m = IsTTY && negb (iflag f).
Proof.
  unfold main. intros Hmain.
  apply bind_Go in Hmain as ([] & Hdebug & Hmain).
  destruct (decide (bflag f ≠ "m")) as [|Hb]; [done|].
  destruct (_ && _) eqn:Hgiven; [done|].
  apply bind_Go in Hmain as (to0 & Hto & Hmain).
  apply bind_Go in Hmain as (from & Hfrom & Hmain).
  destruct msg as [h|err]; [|done].
  apply bind_Go in Hmain as (to' & Hrcpt & Hmain).
  injection Hmain as <-. simpl.
  exists h, to0. repeat split; try done.
  by destruct (decide (bflag f = "m")).
Qed.

End Envelope.

(** X4: with [-t], when [main] gets to [mg.MailMIME] the recipients are
    those of the command line, then the addresses of [To], of [Cc] and of
    [Bcc], in this order and with repeats kept; a field without a value
    gives none, a field with one was parsed without error; and the list
    is not empty. *)
Theorem X4_recipients_from_header
    (to_Set : list Address → string → parsed (list Address))
    (AddressList : Header → string → parsed (list Address))
    (AddressString : Address → string) (USER : string) (IsTTY : bool)
    (f : Flags) (msg : parsed Header) (m : Mail) :
  main to_Set AddressList AddressString USER IsTTY f msg = Go m →
  tflag f = true →
  ∃ (h : Header) to0 a1 a2 a3,
    msg = Ok h
    ∧ set_args to_Set [] (args f) = Go to0
    ∧ listed AddressList h "To" a1
    ∧ listed AddressList h "Cc" a2
    ∧ listed AddressList h "Bcc" a3
    ∧ mail_to m = to0 ++ a1 ++ a2 ++ a3
    ∧ mail_to m ≠ [].
Proof.
  intros Hmain Ht.
  apply main_Go in Hmain as (h & to0 & -> & _ & _ & _ & Hto & _ & Hrcpt & _).
  unfold recipients in Hrcpt. rewrite Ht in Hrcpt.
  apply bind_Go in Hrcpt as (to1 & Hhdr & Hrcpt).
  destruct (length to1 =? 0) eqn:Hlen; [done|]. injection Hrcpt as Heq.
  apply header_recipients_cons in Hhdr as (a1 & H1 & Hhdr).
  apply header_recipients_cons in Hhdr as (a2 & H2 & Hhdr).
  apply header_recipients_cons in Hhdr as (a3 & H3 & Hhdr).
  simpl in Hhdr. injection Hhdr as Hto1.
  exists h, to0, a1, a2, a3. rewrite <-Heq, <-Hto1, <-!app_assoc.
  repeat split; try done.
  intros Hnil. apply Nat.eqb_neq in Hlen.
  rewrite <-Hto1, <-!app_assoc, Hnil in Hlen. done.
Qed.

Lemma X4_recipients_from_header_witness :
  ∃ (h : Header) to0 a1 a2 a3,
    Ok demo_header = Ok h
    ∧ set_args (λ to arg, Ok (to ++ [mkAddress EmptyString arg])) []
        (args demo_flags) = Go to0
    ∧ listed (λ h key, Ok [mkAddress EmptyString (hd EmptyString (values h key))])
        h "To" a1
    ∧ listed (λ h key, Ok [mkAddress EmptyString (hd EmptyString (values h key))])
        h "Cc" a2
    ∧ listed (λ h key, Ok [mkAddress EmptyString (hd EmptyString (values h key))])
        h "Bcc" a3
    ∧ mail_to demo_mail = to0 ++ a1 ++ a2 ++ a3
    ∧ mail_to demo_mail ≠ [].
Proof.
  assert (demo_main = Go demo_mail) as Hmain by (vm_compute; reflexivity).
  exact (X4_recipients_from_header
           (λ to arg, Ok (to ++ [mkAddress EmptyString arg]))
           (λ h key, Ok [mkAddress EmptyString (hd EmptyString (values h key))])
           Addr "root" true demo_flags (Ok demo_header) demo_mail Hmain eq_refl).
Defined.

(** X5: [main] gets to [mg.MailMIME] only in mode [m], with every [-d]
    value one of [http] and [nosend], with an address on the command line
    or [-t], and with a sender: the name is that of [-F], the address that
    of [-f] (or [-r]) when it is not empty, else [$USER], and it is never
    empty; the body is read through a [dotStopReader] exactly when the
    input is a terminal and [-i] was not given. *)
Theorem X5_sent_only_when_checked
    (to_Set : list Address → string → parsed (list Address))
    (AddressList : Header → string → parsed (list Address))
    (AddressString : Address → string) (USER : string) (IsTTY : bool)
    (f : Flags) (msg : parsed Header) (m : Mail) :
  main to_Set AddressList AddressString USER IsTTY f msg = Go m →
  bflag f = "m"
  ∧ Forall (λ v, v = "http" ∨ v = "nosend") (dflag f)
  ∧ (args f ≠ [] ∨ tflag f = true)
  ∧ mail_from m
    = mkAddress (Fflag f) (if decide (fflag f = EmptyString) then USER else fflag f)
  ∧ Addr (mail_from m) ≠ EmptyString
  ∧ mail_dot_stop m = IsTTY && negb (iflag f).
Proof.
  intros Hmain.
  apply main_Go in Hmain
    as (h & to0 & _ & Hdebug & Hb & Hgiven & _ & Hfrom & _ & _ & Hdot).
  split; [done|]. split; [by apply debug_values_Go|].
  split.
  { destruct (args f); [|by left]. right. simpl in Hgiven.
    by destruct (tflag f). }
  unfold from_address in Hfrom.
  destruct (decide (fflag f ≠ EmptyString)) as [Hf|Hf].
  - injection Hfrom as <-. rewrite decide_False by done. done.
  - destruct (decide (USER = EmptyString)) as [|Hu]; [done|].
    injection Hfrom as <-. rewrite decide_True; [done|].
    by destruct (decide (fflag f = EmptyString)).
Qed.

Lemma X5_sent_only_when_checked_witness :
  bflag demo_flags = "m"
  ∧ Forall (λ v, v = "http" ∨ v = "nosend") (dflag demo_flags)
  ∧ (args demo_flags ≠ [] ∨ tflag demo_flags = true)
  ∧ mail_from demo_mail
    = mkAddress (Fflag demo_flags)
        (if decide (fflag demo_flags = EmptyString) then "root" else fflag demo_flags)
  ∧ Addr (mail_from demo_mail) ≠ EmptyString
  ∧ mail_dot_stop demo_mail = true && negb (iflag demo_flags).
Proof.
  assert (demo_main = Go demo_mail) as Hmain by (vm_compute; reflexivity).
  exact (X5_sent_only_when_checked
           (λ to arg, Ok (to ++ [mkAddress EmptyString arg]))
           (λ h key, Ok [mkAddress EmptyString (hd EmptyString (values h key))])
           Addr "root" true demo_flags (Ok demo_header) demo_mail Hmain).
Defined.

(** ** The text of the header block *)

Section HeaderText.
Implicit Types (s t : string) (fs : list (string * string)).

Lemma append_assoc s t u : ((s +:+ t) +:+ u = s +:+ t +:+ u)%string.
Proof.
  induction s as [|c s IH]; [done|].
  change (String c ((s +:+ t) +:+ u) = String c (s +:+ t +:+ u)).
  by rewrite IH.
Qed.

Lemma has_nl_append s t : has_nl (s +:+ t) = has_nl s || has_nl t.
Proof.
  induction s as [|c s IH]; [done|].
  change (Ascii.eqb c (Ascii.ascii_of_nat 10) || has_nl (s +:+ t)
          = Ascii.eqb c (Ascii.ascii_of_nat 10) || has_nl s || has_nl t).
  by rewrite IH, orb_assoc.
Qed.

(** A line without a newline in it is cut off whole. *)
Lemma split_nl_line s t :
  has_nl s = false → split_nl (s +:+ nl +:+ t) = s :: split_nl t.
Proof.
  induction s as [|c s IH]; [done|].
  intros [Hc Hs]%orb_false_iff.
  change (split_nl (String c (s +:+ nl +:+ t)) = String c s :: split_nl t).
  simpl. rewrite Hc, IH by done. done.
Qed.

Lemma field_line_text kv : field_line kv = (field_text kv +:+ nl)%string.
Proof. unfold field_line, field_text. by rewrite !append_assoc. Qed.

Lemma has_nl_field_text kv :
  has_nl kv.1 = false → has_nl kv.2 = false → has_nl (field_text kv) = false.
Proof.
  intros Hk Hv. unfold field_text. rewrite !has_nl_append, Hk, Hv. done.
Qed.

Lemma split_nl_fields fs :
  Forall (λ kv, has_nl kv.1 = false ∧ has_nl kv.2 = false) fs →
  split_nl (write_fields fs) = (field_text <$> fs) ++ [EmptyString; EmptyString].
Proof.
  unfold write_fields. induction fs as [|kv fs IH]; intros Hfs; [done|].
  apply Forall_cons in Hfs as [[Hk Hv] Hfs].
  rewrite !fmap_cons. cbn [foldr].
  rewrite field_line_text, !append_assoc.
  rewrite split_nl_line by (by apply has_nl_field_text).
  by rewrite IH.
Qed.

End HeaderText.

(** X6: with no newline inside a name or a value, the header block cut at
    its newlines is the fields, each as [name: value] on a line of its
    own and in the order written, then one empty line (and the empty
    rest after its newline): every field can be read back, and the block
    ends where the body is to begin. *)
Theorem X6_header_block_lines (fs : list (string * string)) :
  Forall (λ kv, has_nl kv.1 = false ∧ has_nl kv.2 = false) fs →
  split_nl (write_fields fs) = (field_text <$> fs) ++ [EmptyString; EmptyString].
Proof. apply split_nl_fields. Qed.

Lemma X6_header_block_lines_witness :
  split_nl (mail_hdr demo_mail)
  = ["From: root"; "Subject: hi"; "To: a@example.com"; EmptyString; EmptyString].
Proof.
  apply (X6_header_block_lines
           [("From", "root"); ("Subject", "hi"); ("To", "a@example.com")]).
  repeat constructor.
Defined.

(** ** [Read] as an [io.Reader] *)

(** X7: a call into a buffer of at least four bytes, with the state one of
    0 to 3, returns a count that is at most the length of the buffer, and
    leaves the buffer its length; bytes and an error never come together;
    an error returned is [io.EOF] in state 3, else the error the
    underlying reader returned in this call, and then no byte is given;
    below state 3 the underlying reader is read once, into what the held
    bytes leave of the buffer. *)
Theorem X7_Read_as_reader {S : Type} `{Reader S}
    (d : dotStopReader S) (b : list byte) (o : outcome)
    (d' : dotStopReader S) (b' : list byte) :
  4 ≤ length b → state d ≤ 3 →
  Read d b = (o, d', b') →
  ∃ n e,
    o = Returned n e
    ∧ n ≤ length b ∧ length b' = length b
    ∧ (0 < n → e = None)
    ∧ (∀ e0, e = Some e0 →
         n = 0
         ∧ (state d = 3 ∧ e0 = EOF
            ∨ state d ≤ 2
              ∧ (io_read (r d) (length b - state d)).1.2 = Some e0))
    ∧ (state d = 3 → d' = d ∧ b' = b)
    ∧ (state d ≤ 2 → r d' = (io_read (r d) (length b - state d)).2).
Proof.
  intros Hlen Hst HR.
  destruct (decide (state d = 3)) as [Hdone|Hnot].
  { rewrite Read_done in HR by done. simplify_eq.
    exists 0, (Some EOF). split; [done|]. split; [lia|]. split; [done|].
    split; [lia|]. split; [|split; [done|lia]].
    intros e0 He0. injection He0 as <-. split; [done|]. by left. }
  destruct (io_read (r d) (length b - state d)) as [[data err] src] eqn:Hio.
  destruct (Loop 0 (length (carry d ++ data)) 0 (carry d ++ data))
    as [st n] eqn:HL.
  destruct (Read_spec d b data err src st n Hlen ltac:(lia) Hio HL)
    as (d1 & b1 & HR1 & Hr & Hs & Hc & Ht & Hlb).
  rewrite HR1 in HR. injection HR as <- <- <-.
  pose proof (Loop_result _ _ _ HL) as (_ & _ & Hn & _).
  pose proof (io_read_len (r d) (length b - state d)) as Hdata.
  rewrite Hio in Hdata. simpl in Hdata.
  rewrite length_app, length_carry in Hn by lia.
  eexists _, _. split; [done|]. simpl.
  split; [lia|]. split; [done|]. split; [|split; [|split; [lia|done]]].
  - intros Hpos. apply Nat.ltb_lt in Hpos. by rewrite Hpos.
  - intros e0 He0. destruct (0 <? n - st) eqn:Hpos; [done|].
    apply Nat.ltb_ge in Hpos. split; [lia|]. right. split; [lia|done].
Qed.

Lemma X7_Read_as_reader_witness :
  ∃ n e,
    (Read (newDotStop (hello, [7])) (replicate 8 x00)).1.1 = Returned n e
    ∧ n ≤ 8.
Proof.
  destruct (Read (newDotStop (hello, [7])) (replicate 8 x00))
    as [[o d'] b'] eqn:HR.
  destruct (X7_Read_as_reader (newDotStop (hello, [7])) (replicate 8 x00)
              o d' b') as (n & e & Ho & Hn & _).
  - simpl. lia.
  - simpl. lia.
  - exact HR.
  - exists n, e. split; [exact Ho|exact Hn].
Defined.

(** ** When one call ends the message *)

Lemma sticky_first_stop (chunk : list byte) :
  3 ≤ sticky 0 chunk →
  ∃ bs c rest, chunk = bs ++ c :: rest ∧ sticky 0 bs = 2 ∧ is_break c = true.
Proof.
  induction chunk as [|x chunk IH] using rev_ind; [rewrite sticky_nil; lia|].
  rewrite sticky_snoc. intros Hst.
  destruct (decide (3 ≤ sticky 0 chunk)) as [Hge|Hlt].
  - destruct (IH Hge) as (bs & c & rest & -> & Hbs & Hc).
    exists bs, c, (rest ++ [x]). by rewrite <-app_assoc.
  - pose proof (switch_le (sticky 0 chunk) x).
    assert (sticky 0 chunk = 2) as H2 by lia. rewrite H2 in Hst. simpl in Hst.
    destruct (is_break x) eqn:Hx; simpl in Hst; [|lia].
    by exists chunk, x, [].
Qed.

Lemma scan_cases (chunk : list byte) :
  (kept chunk = 3 ↔ scattered chunk)
  ∧ (kept chunk = 3 →
     ∃ pat rest, chunk = given chunk ++ pat ++ rest
                 ∧ length pat = 3 ∧ ends_break pat)
  ∧ (kept chunk ≠ 3 →
     chunk = given chunk ++ held chunk ∧ length (held chunk) = kept chunk).
Proof.
  pose proof (kept_le3 chunk) as Hle. split; [|split].
  - rewrite kept_sticky. split.
    + intros Hk. apply sticky_scattered. lia.
    + intros Hs%scattered_sticky. rewrite kept_sticky in Hle. lia.
  - intros Hk. rewrite kept_sticky in Hk.
    destruct (sticky_first_stop chunk ltac:(lia)) as (bs & c & rest & -> & Hbs & Hc).
    destruct (scan_stop bs c rest Hbs Hc) as [_ ->].
    pose proof (sticky_le_length bs 0) as Hlen. rewrite Hbs in Hlen.
    exists (drop (length bs - 2) bs ++ [c]), rest. split; [|split].
    + rewrite <-!app_assoc, (app_assoc (take _ _)), take_drop. done.
    + rewrite length_app, length_drop. simpl. lia.
    + by exists (drop (length bs - 2) bs), c.
  - intros Hk. destruct (given_held chunk ltac:(lia)) as [Hgh Hlh]. done.
Qed.

(** X8: a call below state 3 ends the message (leaves the reader in state
    3) exactly when the bytes it scans, the held bytes followed by the
    bytes just read, hold a line break, later a dot and later a line
    break, whatever lies between them.  Then the bytes scanned are the
    bytes given, three bytes of which the last is a line break, and a rest
    that is dropped; else they are the bytes given followed by the bytes
    held back, as many as the new state. *)
Theorem X8_call_stops_iff_scattered {S : Type} `{Reader S}
    (d : dotStopReader S) (b data : list byte) (err : option error) (src : S)
    (o : outcome) (d' : dotStopReader S) (b' : list byte) :
  4 ≤ length b → state d ≤ 2 →
  io_read (r d) (length b - state d) = (data, err, src) →
  Read d b = (o, d', b') →
  (state d' = 3 ↔ scattered (carry d ++ data))
  ∧ (state d' = 3 →
     ∃ pat rest, carry d ++ data = delivered o b' ++ pat ++ rest
                 ∧ length pat = 3 ∧ ends_break pat)
  ∧ (state d' ≠ 3 →
     carry d ++ data = delivered o b' ++ carry d'
     ∧ length (carry d') = state d').
Proof.
  intros Hlen Hst Hio HR.
  destruct (Read_scan d b data err src Hlen Hst Hio)
    as (d1 & b1 & HR1 & _ & Hs & Hc & Ht).
  rewrite HR1 in HR. injection HR as <- <- <-.
  simpl. rewrite Ht, Hs, Hc. apply scan_cases.
Qed.

Lemma X8_call_stops_iff_scattered_witness : scattered a_dot_b.
Proof.
  destruct (Read (newDotStop (a_dot_b, [])) (replicate 8 x00))
    as [[o d'] b'] eqn:HR.
  destruct (X8_call_stops_iff_scattered (newDotStop (a_dot_b, []))
              (replicate 8 x00) a_dot_b None ([], []) o d' b')
    as [Hiff _].
  - simpl. lia.
  - simpl. lia.
  - reflexivity.
  - exact HR.
  - apply Hiff. vm_compute in HR. by injection HR as _ <- _.
Defined.

(** ** Whole runs *)

Lemma dot_after_break_sticky (bs : list byte) :
  dot_after_break bs → 2 ≤ sticky 0 bs.
Proof.
  intros (u & b & v & w & -> & Hb).
  rewrite sticky_app, sticky_cons, sticky_app, sticky_cons.
  etrans; [|apply sticky_ge].
  assert (1 ≤ (switch (sticky 0 u) b).1) as H1.
  { etrans; [|apply (switch_mono 0); lia]. simpl. by rewrite Hb. }
  etrans; [|apply (switch_mono 1)]; [done|].
  etrans; [exact H1|apply sticky_ge].
Qed.

(** X9: when the input is [pre], a terminator (a line break, a dot, a
    line break) and anything after it, and no dot of [pre] comes after a
    line break of [pre], then however the stream is handed out and
    whatever the buffers of at least four bytes: every call returns; what
    is delivered is a prefix of [pre], and [pre] exactly once the reader is
    in state 3; an error is returned only in state 3, as 0 and [io.EOF];
    and with every read of the stream making progress a run of more than
    three times the length of the input gets there.  On such input the
    bytes delivered do not depend on the pieces. *)
Theorem X9_message_ends_at_terminator (pre post : list byte) (b1 b2 : byte)
    (sched : list nat) (bufs : list (list byte)) (os : list outcome)
    (out : list byte) (d : dotStopReader ChunkSource) :
  is_break b1 = true → is_break b2 = true → ¬ dot_after_break pre →
  Forall (λ b, 4 ≤ length b) bufs →
  run (newDotStop (pre ++ b1 :: DOT :: b2 :: post, sched)) bufs = (os, out, d) →
  out `prefix_of` pre
  ∧ Forall returned os
  ∧ (state d = 3 → out = pre)
  ∧ (∀ n e, latest None os = Some (Returned n (Some e)) →
       state d = 3 ∧ n = 0 ∧ e = EOF)
  ∧ (Forall (λ k, 1 ≤ k) sched →
     3 * length (pre ++ b1 :: DOT :: b2 :: post) < length bufs →
       state d = 3 ∧ last os = Some (Returned 0 (Some EOF))).
Proof.
  intros Hb1 Hb2 Hpre Hbufs Hrun.
  apply no_dot_after_break_sticky in Hpre.
  by apply (stopping_run pre post b1 b2 Hb1 Hb2 Hpre sched bufs os out d).
Qed.

Lemma X9_message_ends_at_terminator_witness :
  (run (newDotStop ((of_string "Dear J. Doe," ++ [LF] ++ of_string "bye")
                      ++ LF :: DOT :: LF :: of_string "x", [3; 1; 20]))
     (buffers 6 9)).1.2
    `prefix_of` of_string "Dear J. Doe," ++ [LF] ++ of_string "bye".
Proof.
  destruct (run (newDotStop ((of_string "Dear J. Doe," ++ [LF] ++ of_string "bye")
                      ++ LF :: DOT :: LF :: of_string "x", [3; 1; 20]))
              (buffers 6 9)) as [[os out] d] eqn:Hrun.
  assert (Forall (λ b : list byte, 4 ≤ length b) (buffers 6 9)) as Hbufs
    by (repeat constructor).
  assert (¬ dot_after_break (of_string "Dear J. Doe," ++ [LF] ++ of_string "bye"))
    as Hpre.
  { intros Hd. apply dot_after_break_sticky in Hd. vm_compute in Hd. lia. }
  exact (proj1 (X9_message_ends_at_terminator _ _ LF LF _ _ os out d
                  eq_refl eq_refl Hpre Hbufs Hrun)).
Defined.

(** X10: on any input, a call returns an error only as 0 and [io.EOF],
    and only in state 3 or with the stream read to its end; with every
    read of the stream making progress, a run of more than three times
    the length of the input ends with such a call, and from then on every
    call returns 0 and [io.EOF] and gives nothing. *)
Theorem X10_every_run_ends (input : list byte) (sched : list nat)
    (bufs : list (list byte)) (os : list outcome) (out : list byte)
    (d : dotStopReader ChunkSource) :
  Forall (λ b, 4 ≤ length b) bufs →
  run (newDotStop (input, sched)) bufs = (os, out, d) →
  Forall returned os
  ∧ (∀ n e, latest None os = Some (Returned n (Some e)) →
       n = 0 ∧ e = EOF ∧ (state d = 3 ∨ (r d).1 = []))
  ∧ (Forall (λ k, 1 ≤ k) sched → 3 * length input < length bufs →
       last os = Some (Returned 0 (Some EOF))
       ∧ ∀ bufs', Forall (λ b, 4 ≤ length b) bufs' →
           ∃ d'', run d bufs'
                  = (replicate (length bufs') (Returned 0 (Some EOF)), [], d'')).
Proof.
  intros Hbufs Hrun.
  destruct (run_invariant
              (λ (_ : list byte) o (d : dotStopReader ChunkSource),
                 state d ≤ 3
                 ∧ ∀ n e, o = Some (Returned n (Some e)) →
                     n = 0 ∧ e = EOF ∧ (state d = 3 ∨ (r d).1 = [])))
    with (bufs := bufs) (out := @nil byte) (o := @None outcome)
         (d := newDotStop (input, sched)) (os := os) (out' := out) (d' := d)
    as (_ & Hret & _ & Herr); try done.
  { intros out0 o0 d0 b0 [Hst0 _] Hb0.
    destruct (decide (state d0 = 3)) as [Hdone|Hnot].
    { exists 0, (Some EOF), d0, b0. rewrite Read_done by done.
      split; [done|]. split; [done|]. intros n e Heq. simplify_eq. auto. }
    destruct (Read_chunk d0 b0 Hb0 ltac:(lia))
      as (data & err & d1 & b1 & HR & Hs & _ & _ & Hdata & _ & Herr & _).
    eexists _, _, d1, b1. split; [exact HR|].
    split; [rewrite Hs; apply kept_le3|].
    intros n e Heq.
    destruct (0 <? length (given (carry d0 ++ data))) eqn:Hpos; [done|].
    apply Nat.ltb_ge in Hpos. injection Heq as Hn He.
    destruct Herr as [[? _]|(-> & Hnil & _)]; [congruence|].
    injection He as <-. rewrite Hnil in Hdata.
    apply app_eq_nil in Hdata as [_ Hrem].
    split; [lia|]. split; [done|]. by right. }
  { split; [simpl; lia|done]. }
  split; [done|]. split; [done|].
  intros Hsched Hfuel.
  destruct (run_reaches_eof bufs (newDotStop (input, sched)) os out d)
    as [Hlast Heof]; simpl; try done; try lia.
  split; [done|]. intros bufs' Hbufs'.
  destruct (run d bufs') as [[os' out'] d''] eqn:Hrun'.
  destruct (at_eof_run _ _ _ _ _ Heof Hbufs' Hrun') as (Hos & Hlen & -> & _).
  exists d''. f_equal. f_equal. symmetry. apply replicate_as_Forall_2; [done|].
  eapply Forall_impl; [exact Hos|]. by intros o ->.
Qed.

Lemma X10_every_run_ends_witness :
  Forall returned (run (newDotStop (two_dots, [1; 2])) (buffers 4 30)).1.1.
Proof.
  destruct (run (newDotStop (two_dots, [1; 2])) (buffers 4 30))
    as [[os out] d] eqn:Hrun.
  assert (Forall (λ b : list byte, 4 ≤ length b) (buffers 4 30)) as Hbufs
    by (repeat constructor).
  exact (proj1 (X10_every_run_ends two_dots [1; 2] (buffers 4 30) os out d
                  Hbufs Hrun)).
Defined.
